(** * Sequential image-processing benchmark: a shallow embedding of
    [codebase.cpp] and the properties of its five pixel kernels.

    Conventions of the embedding.
    - [int] and [long long] values are integers of [Z]; every arithmetic
      operation of the source is followed by its two's-complement
      wrap-around ([wrap_int], [wrap_llong]).
    - [unsigned char] values are integers of [Z] in [0, 255]; the conversion
      of an [int] to [unsigned char] is reduction modulo 256.
    - [double] is the kernel's binary64 type [float]; every product and sum
      is rounded to nearest-even on its own, as written in the source
      (no fused multiply-add, no extended precision).
    - [std::vector<unsigned char>] is a [list Z] read with stdpp's lookup and
      written with stdpp's insert; an access outside the vector has no
      defined result in C++, so reads and writes return [None] there and
      the functions live in the [option] monad. *)

From Stdlib Require Import ZArith Lia Floats Uint63.
From stdpp Require Import base option list numbers strings.

Set Warnings "-inexact-float".
Local Open Scope Z_scope.

(** ** Machine integers *)

Definition INT_MAX : Z := 2147483647.
Definition INT_MIN : Z := -2147483648.

(** Two's-complement wrap-around of a 32-bit [int]. *)
Definition wrap_int (z : Z) : Z := (z + 2 ^ 31) `mod` 2 ^ 32 - 2 ^ 31.

(** Two's-complement wrap-around of a 64-bit [long long]. *)
Definition wrap_llong (z : Z) : Z := (z + 2 ^ 63) `mod` 2 ^ 64 - 2 ^ 63.

Definition int_mul (x y : Z) : Z := wrap_int (x * y).
Definition int_add (x y : Z) : Z := wrap_int (x + y).

(** The operator [%] of C++ truncates towards zero: the remainder has the
    sign of the dividend. *)
Definition int_rem (x y : Z) : Z := Z.rem x y.

Definition llong_add (x y : Z) : Z := wrap_llong (x + y).

(** Conversion of an [int] to [unsigned char]. *)
Definition to_uchar (z : Z) : Z := z `mod` 256.

Definition is_uchar (z : Z) : Prop := 0 ≤ z ≤ 255.

(** ** Vectors of bytes *)

(** [v[i]] read. *)
Definition vec_get (v : list Z) (i : Z) : option Z :=
  if 0 <=? i then v !! Z.to_nat i else None.

(** [v[i] = x]. *)
Definition vec_set (v : list Z) (i : Z) (x : Z) : option (list Z) :=
  if (0 <=? i) && (i <? Z.of_nat (length v))
  then Some (<[Z.to_nat i := x]> v)
  else None.

(** ** The image *)

Record Image : Type := mkImage {
  width : Z;
  height : Z;
  r : list Z;
  g : list Z;
  b : list Z;
  gray : list Z
}.

(** [int size = img.width * img.height], as every kernel computes it. *)
Definition Image_size (img : Image) : Z := int_mul (width img) (height img).

(** The constructor. [resize] receives the [int] size converted to
    [size_t]; a negative size becomes a length above [max_size] and
    [resize] throws, which ends the program: no image is built. *)
Definition Image_new (w h : Z) : option Image :=
  let size := int_mul w h in
  if size <? 0 then None
  else
    let n := Z.to_nat size in
    Some (mkImage w h (replicate n 0) (replicate n 0) (replicate n 0) (replicate n 0)).

Definition set_r (img : Image) (v : list Z) : Image :=
  mkImage (width img) (height img) v (g img) (b img) (gray img).
Definition set_g (img : Image) (v : list Z) : Image :=
  mkImage (width img) (height img) (r img) v (b img) (gray img).
Definition set_b (img : Image) (v : list Z) : Image :=
  mkImage (width img) (height img) (r img) (g img) v (gray img).
Definition set_gray (img : Image) (v : list Z) : Image :=
  mkImage (width img) (height img) (r img) (g img) (b img) v.

(** ** The loop [for (int i = 0; i < size; i++) body] *)

Fixpoint for_loop {St : Type} (body : Z → St → option St)
    (n : nat) (i : Z) (s : St) : option St :=
  match n with
  | O => Some s
  | S n' => s' ← body i s; for_loop body n' (i + 1) s'
  end.

(** No iteration runs when [size <= 0]; the counter stays below [size],
    hence below [INT_MAX], and [i++] never wraps. *)
Definition for_upto {St : Type} (size : Z) (body : Z → St → option St)
    (s : St) : option St :=
  for_loop body (Z.to_nat size) 0 s.

(** ** Function 1: synthetic image data *)

Definition generate_body (i : Z) (img : Image) : option Image :=
  r' ← vec_set (r img) i (to_uchar (int_rem (int_mul i 123) 256));
  let img := set_r img r' in
  g' ← vec_set (g img) i (to_uchar (int_rem (int_mul i 456) 256));
  let img := set_g img g' in
  b' ← vec_set (b img) i (to_uchar (int_rem (int_mul i 789) 256));
  Some (set_b img b').

Definition generateImageData (img : Image) : option Image :=
  for_upto (Image_size img) generate_body img.

(** ** Function 2: RGB to grayscale *)

(** Integral promotion of an [unsigned char] followed by the conversion to
    [double]; exact for every byte. *)
Definition uchar_to_double (z : Z) : float := of_uint63 (Uint63.of_Z z).

(** [0.299 * r + 0.587 * g + 0.114 * b], evaluated left to right in
    binary64. *)
Definition weighted (cr cg cb : Z) : float :=
  (0.299 * uchar_to_double cr + 0.587 * uchar_to_double cg
   + 0.114 * uchar_to_double cb)%float.

(** Truncation of a [double] towards zero; infinities and NaN have no
    truncation. [Z.shiftl] with a negative exponent shifts right. *)
Definition trunc_double (d : float) : option Z :=
  match Prim2SF d with
  | S754_zero _ => Some 0
  | S754_finite s m e => Some (cond_Zopp s (Z.shiftl (Z.pos m) e))
  | S754_infinity _ | S754_nan => None
  end.

(** The cast [(unsigned char) d]: the fractional part is discarded, and the
    conversion is defined only when the truncated value is a byte. *)
Definition double_to_uchar (d : float) : option Z :=
  z ← trunc_double d;
  if (0 <=? z) && (z <=? 255) then Some z else None.

Definition gray_of (cr cg cb : Z) : option Z :=
  double_to_uchar (weighted cr cg cb).

Definition grayscale_body (i : Z) (img : Image) : option Image :=
  cr ← vec_get (r img) i;
  cg ← vec_get (g img) i;
  cb ← vec_get (b img) i;
  y ← gray_of cr cg cb;
  gray' ← vec_set (gray img) i y;
  Some (set_gray img gray').

Definition convertToGrayscale (img : Image) : option Image :=
  for_upto (Image_size img) grayscale_body img.

(** ** Function 3: average gray value *)

(** Conversion of a [long long] (or an [int]) to [double], rounded to
    nearest when the integer has more than 53 significant bits. *)
Definition llong_to_double (z : Z) : float :=
  if z =? - 2 ^ 63 then (-0x1p63)%float
  else if z <? 0 then (- of_uint63 (Uint63.of_Z (- z)))%float
  else of_uint63 (Uint63.of_Z z).

Definition average_body (img : Image) (i : Z) (sum : Z) : option Z :=
  x ← vec_get (gray img) i;
  Some (llong_add sum x).

Definition calculateAverageGray (img : Image) : option float :=
  let size := Image_size img in
  sum ← for_upto size (average_body img) 0;
  Some (llong_to_double sum / llong_to_double size)%float.

(** ** Function 4: brightness adjustment *)

(** One pixel of the loop body: [int newVal = gray + offset], the two
    clamping tests in the order of the source, and the cast back to
    [unsigned char]. *)
Definition brighten (offset x : Z) : Z :=
  let newVal := int_add x offset in
  let newVal := if 255 <? newVal then 255 else newVal in
  let newVal := if newVal <? 0 then 0 else newVal in
  to_uchar newVal.

Definition brightness_body (offset : Z) (i : Z) (img : Image) : option Image :=
  x ← vec_get (gray img) i;
  gray' ← vec_set (gray img) i (brighten offset x);
  Some (set_gray img gray').

Definition adjustBrightness (img : Image) (offset : Z) : option Image :=
  for_upto (Image_size img) (brightness_body offset) img.

(** ** Function 5: threshold *)

(** One pixel of the loop body; both operands of [>=] are promoted to
    [int]. *)
Definition binarize (threshold x : Z) : Z :=
  if threshold <=? x then 255 else 0.

Definition threshold_body (threshold : Z) (i : Z) (img : Image) : option Image :=
  x ← vec_get (gray img) i;
  gray' ← vec_set (gray img) i (binarize threshold x);
  Some (set_gray img gray').

Definition applyThreshold (img : Image) (threshold : Z) : option Image :=
  for_upto (Image_size img) (threshold_body threshold) img.

(** ** Well-formed images *)

(** The data-model invariant: the pixel count fits an [int], the four
    channels have that length, and every stored value is a byte. *)
Record Image_wf (img : Image) : Prop := mkImage_wf {
  wf_size : 0 ≤ width img * height img ≤ INT_MAX;
  wf_r : length (r img) = Z.to_nat (width img * height img);
  wf_g : length (g img) = Z.to_nat (width img * height img);
  wf_b : length (b img) = Z.to_nat (width img * height img);
  wf_gray : length (gray img) = Z.to_nat (width img * height img);
  wf_r_bytes : Forall is_uchar (r img);
  wf_g_bytes : Forall is_uchar (g img);
  wf_b_bytes : Forall is_uchar (b img);
  wf_gray_bytes : Forall is_uchar (gray img)
}.


(** ** Reference values used by the statements *)

(** Saturation of an integer to a byte. *)
Definition clamp (z : Z) : Z := Z.max 0 (Z.min 255 z).

(** The byte written at index [i] by the generator with multiplier [k], and
    the channel of [n] such bytes. *)
Definition ramp (k : Z) (n : nat) : list Z :=
  (λ i : nat, (Z.of_nat i * k) `mod` 256) <$> seq 0 n.

(** The gray value of one pixel, and of a whole image. *)
Definition luma (cr cg cb : Z) : Z := default 0 (gray_of cr cg cb).

Definition luma_list (lr lg lb : list Z) : list Z :=
  zip_with (λ cr gb, luma cr gb.1 gb.2) lr (zip lg lb).

Definition Zsum (l : list Z) : Z := foldr Z.add 0 l.

(** The 256 bytes, and the 256 values each product of [weighted] can take. *)
Definition bytes : list Z := Eval vm_compute in Z.of_nat <$> seq 0 256.

Definition red_terms : list float :=
  Eval vm_compute in (λ z, 0.299 * uchar_to_double z)%float <$> bytes.
Definition green_terms : list float :=
  Eval vm_compute in (λ z, 0.587 * uchar_to_double z)%float <$> bytes.
Definition blue_terms : list float :=
  Eval vm_compute in (λ z, 0.114 * uchar_to_double z)%float <$> bytes.

Definition in_byte_range (d : float) : bool := ((0 <=? d) && (d <=? 255))%float.

(** [p] holds of every sum [x + y + z] of one element of each list. *)
Definition all_sums (p : float → bool) (xs ys zs : list float) : bool :=
  forallb (λ x, forallb (λ y, forallb (λ z, p (x + y + z)%float) zs) ys) xs.

(** ** The command line and [main] *)

Section Main.

(** [atoi] of the C library, on a NUL-terminated string. *)
Variable atoi : string → Z.

(** The argument parsing of [main]. [argv] lists [argv[0]] to
    [argv[argc - 1]]; [argv[argc]] is the null pointer, and [atoi] of a
    null pointer has no defined result ([None]). *)
Definition parse_dimensions (argv : list string) : option (Z * Z) :=
  let width := 1024 in
  let height := 1024 in
  let argc := Z.of_nat (length argv) in
  if 1 <? argc then
    width ← atoi <$> argv !! 1%nat;
    height ← atoi <$> argv !! 2%nat;
    Some (width, height)
  else Some (width, height).

End Main.

(** The five stages of [main], in their order; the timing and the printing
    around them are left out. The result is the average that [main] prints
    and the image at the end. *)
Definition pipeline (width height : Z) : option (float * Image) :=
  img ← Image_new width height;
  img ← generateImageData img;
  img ← convertToGrayscale img;
  avgGray ← calculateAverageGray img;
  img ← adjustBrightness img 20;
  img ← applyThreshold img 128;
  Some (avgGray, img).

(** [main]: the exit code, when the program reaches [return 0]. *)
Definition main (atoi : string → Z) (argv : list string) : option Z :=
  dims ← parse_dimensions atoi argv;
  _ ← pipeline dims.1 dims.2;
  Some 0.

(** ** Sample images *)

(** Four pixels whose gray values straddle the threshold 128. *)
Definition img_2x2 : Image :=
  mkImage 2 2 [0; 0; 0; 0] [0; 0; 0; 0] [0; 0; 0; 0] [0; 127; 128; 255].

(** One white pixel, and one nearly black pixel. *)
Definition img_white : Image := mkImage 1 1 [255] [255] [255] [0].
Definition img_dark : Image := mkImage 1 1 [0] [0] [0] [1].

(** Two pixels of full gray. *)
Definition img_full : Image := mkImage 2 1 [0; 0] [0; 0] [0; 0] [255; 255].

(** ** The exact weighted sum, in thousandths *)

(** Each term of [weighted] beside its exact value times 1000, for the
    256 bytes. *)
Definition red_pairs : list (int * float) :=
  Eval vm_compute in
    (λ z, (Uint63.of_Z (299 * z), 0.299 * uchar_to_double z)%float) <$> bytes.
Definition green_pairs : list (int * float) :=
  Eval vm_compute in
    (λ z, (Uint63.of_Z (587 * z), 0.587 * uchar_to_double z)%float) <$> bytes.
Definition blue_pairs : list (int * float) :=
  Eval vm_compute in
    (λ z, (Uint63.of_Z (114 * z), 0.114 * uchar_to_double z)%float) <$> bytes.

(** With [s] the exact sum in thousandths and [q = s / 1000] its integer
    part: the binary64 sum lies in [q, q + 1), or [s] is a multiple of
    1000 and the binary64 sum lies in [q - 1, q). *)
Definition near_floor (x y z : int * float) : bool :=
  let s := (x.1 + y.1 + z.1)%uint63 in
  let q := (s / 1000)%uint63 in
  let v := (x.2 + y.2 + z.2)%float in
  ((of_uint63 q <=? v) && (v <? of_uint63 (q + 1)))%float
  || ((s mod 1000 =? 0)%uint63 && (0 <? q)%uint63
      && (of_uint63 (q - 1) <=? v)%float && (v <? of_uint63 q)%float).

Definition all_triples {A : Type} (p : A → A → A → bool) (xs ys zs : list A) : bool :=
  forallb (λ x, forallb (λ y, forallb (λ z, p x y z) zs) ys) xs.

(** * Properties *)

(** ** Machine integers *)

Lemma wrap_int_id z : INT_MIN ≤ z ≤ INT_MAX → wrap_int z = z.
Proof.
  unfold wrap_int, INT_MIN, INT_MAX. intros Hz.
  rewrite Z.mod_small; lia.
Qed.

Lemma wrap_llong_id z : - 2 ^ 63 ≤ z < 2 ^ 63 → wrap_llong z = z.
Proof.
  unfold wrap_llong. intros Hz.
  rewrite Z.mod_small; lia.
Qed.

Lemma wrap_int_mod256 z : wrap_int z `mod` 256 = z `mod` 256.
Proof.
  unfold wrap_int.
  rewrite (Z.mod_eq (z + 2 ^ 31) (2 ^ 32)) by lia.
  set (q := (z + 2 ^ 31) `div` 2 ^ 32).
  replace (z + 2 ^ 31 - 2 ^ 32 * q - 2 ^ 31) with (z + (- (q * 16777216)) * 256) by lia.
  apply Z.mod_add. lia.
Qed.

Lemma rem_mod256 z : Z.rem z 256 `mod` 256 = z `mod` 256.
Proof.
  rewrite (Z.rem_eq z 256) by lia.
  rewrite <- Z.add_opp_r.
  replace (- (256 * (z ÷ 256))) with ((- (z ÷ 256)) * 256) by lia.
  apply Z.mod_add. lia.
Qed.

(** The byte stored by [v[i] = (i * k) % 256]. *)
Lemma stored_byte i k :
  to_uchar (int_rem (int_mul i k) 256) = (i * k) `mod` 256.
Proof.
  unfold to_uchar, int_rem, int_mul.
  rewrite rem_mod256. apply wrap_int_mod256.
Qed.

(** ** Vectors *)

Lemma vec_get_nat (v : list Z) (i : nat) : vec_get v (Z.of_nat i) = v !! i.
Proof.
  unfold vec_get. rewrite Nat2Z.id.
  destruct (Z.leb_spec 0 (Z.of_nat i)); [done | lia].
Qed.

Lemma vec_set_nat (v : list Z) (i : nat) (x : Z) :
  (i < length v)%nat → vec_set v (Z.of_nat i) x = Some (<[i := x]> v).
Proof.
  intros Hi. unfold vec_set. rewrite Nat2Z.id.
  destruct (Z.leb_spec 0 (Z.of_nat i)); [| lia].
  destruct (Z.ltb_spec (Z.of_nat i) (Z.of_nat (length v))); [done | lia].
Qed.

Lemma insert_take_drop (v w : list Z) (i : nat) (x : Z) :
  length v = length w → v !! i = Some x →
  <[i := x]> (take i v ++ drop i w) = take (S i) v ++ drop (S i) w.
Proof.
  intros Hlen Hx.
  assert (Hi : (i < length v)%nat) by (eapply lookup_lt_Some; eauto).
  assert (Hti : length (take i v) = i) by (rewrite length_take; lia).
  rewrite (take_S_r v i x Hx).
  destruct (lookup_lt_is_Some_2 w i) as [y Hy]; [lia |].
  rewrite (drop_S w y i Hy).
  rewrite <- (Nat.add_0_r i) at 1.
  rewrite <- Hti at 1.
  rewrite insert_app_r. simpl.
  by rewrite <- app_assoc.
Qed.

(** ** Loops *)

(** Hoare rule of the counting loop: an invariant indexed by the counter,
    kept by every iteration that runs, holds when the loop ends; and the
    loop does end with a state. *)
Lemma for_loop_inv {St : Type} (body : Z → St → option St)
    (P : nat → St → Prop) (n k : nat) (s : St) :
  (∀ j t, (k ≤ j < k + n)%nat → P j t →
     ∃ t', body (Z.of_nat j) t = Some t' ∧ P (S j) t') →
  P k s →
  ∃ s', for_loop body n (Z.of_nat k) s = Some s' ∧ P (k + n)%nat s'.
Proof.
  revert k s. induction n as [| n IH]; intros k s Hstep Hk.
  - exists s. rewrite Nat.add_0_r. done.
  - destruct (Hstep k s) as (t' & Hb & Ht'); [lia | done |].
    destruct (IH (S k) t') as (s' & Hl & Hs').
    + intros j t Hj. apply Hstep. lia.
    + done.
    + exists s'. simpl. rewrite Hb. simpl.
      replace (Z.of_nat k + 1) with (Z.of_nat (S k)) by lia.
      split; [done |]. by replace (k + S n)%nat with (S k + n)%nat by lia.
Qed.

Lemma for_upto_inv {St : Type} (body : Z → St → option St)
    (P : nat → St → Prop) (size : Z) (s : St) :
  (∀ j t, (j < Z.to_nat size)%nat → P j t →
     ∃ t', body (Z.of_nat j) t = Some t' ∧ P (S j) t') →
  P O s →
  ∃ s', for_upto size body s = Some s' ∧ P (Z.to_nat size) s'.
Proof.
  intros Hstep H0. unfold for_upto.
  apply (for_loop_inv body P (Z.to_nat size) O s); [| done].
  intros j t Hj. apply Hstep. lia.
Qed.

(** ** Loops over a well-formed image *)

Lemma Image_size_wf img :
  0 ≤ width img * height img ≤ INT_MAX →
  Image_size img = width img * height img.
Proof.
  intros H. unfold Image_size, int_mul. apply wrap_int_id.
  unfold INT_MIN, INT_MAX in *. lia.
Qed.

(** A loop whose iteration [i] stores [vals[i]] into [gray[i]], whatever
    the earlier iterations stored, produces the vector [vals]. *)
Lemma gray_loop_spec (body : Z → Image → option Image) (img : Image)
    (vals : list Z) :
  length (gray img) = Z.to_nat (Image_size img) →
  length vals = length (gray img) →
  (∀ (i : nat) cur x,
     vals !! i = Some x →
     width cur = width img → height cur = height img →
     r cur = r img → g cur = g img → b cur = b img →
     length (gray cur) = length (gray img) →
     gray cur !! i = gray img !! i →
     body (Z.of_nat i) cur = Some (set_gray cur (<[i := x]> (gray cur)))) →
  for_upto (Image_size img) body img = Some (set_gray img vals).
Proof.
  intros Hlen Hvals Hbody.
  set (P := fun (j : nat) (cur : Image) =>
    width cur = width img ∧ height cur = height img ∧
    r cur = r img ∧ g cur = g img ∧ b cur = b img ∧
    gray cur = take j vals ++ drop j (gray img)).
  destruct (for_upto_inv body P (Image_size img) img) as (s' & Hrun & Hs').
  - intros j cur Hj (Hw & Hh & Hr & Hg & Hb & Hgray).
    destruct (lookup_lt_is_Some_2 vals j) as [x Hx]; [lia |].
    exists (set_gray cur (<[j := x]> (gray cur))). split.
    + apply Hbody; try done.
      * rewrite Hgray, length_app, length_take, length_drop. lia.
      * rewrite Hgray, lookup_app_r by (rewrite length_take; lia).
        rewrite length_take, lookup_drop. f_equal. lia.
    + unfold P. simpl. repeat split; try done.
      rewrite Hgray. by apply insert_take_drop.
  - unfold P. by rewrite take_0, drop_0.
  - rewrite Hrun. f_equal.
    destruct Hs' as (Hw & Hh & Hr & Hg & Hb & Hgray).
    rewrite take_ge, drop_ge, app_nil_r in Hgray by lia.
    destruct s'; simpl in *. unfold set_gray. by subst.
Qed.

(** ** Binary64 facts *)

Lemma digits2_pos_bound (p : positive) : Z.pos p < 2 ^ Z.pos (digits2_pos p).
Proof.
  induction p as [p IH | p IH |]; simpl digits2_pos.
  - rewrite Pos2Z.inj_succ, Z.pow_succ_r by lia. lia.
  - rewrite Pos2Z.inj_succ, Z.pow_succ_r by lia. lia.
  - reflexivity.
Qed.

(** A valid binary64 mantissa has at most 53 bits. *)
Lemma valid_mantissa_bound s m e :
  valid_binary (S754_finite s m e) = true → Z.pos m < 2 ^ 53.
Proof.
  simpl. unfold bounded, canonical_mantissa, fexp.
  intros [Hc _]%andb_true_iff. apply Z.eqb_eq in Hc.
  pose proof (digits2_pos_bound m) as Hd.
  assert (Z.pos (digits2_pos m) ≤ 53) by (unfold FloatOps.prec in Hc; lia).
  eapply Z.lt_le_trans; [exact Hd |].
  apply Z.pow_le_mono_r; lia.
Qed.

(** The order of two positive finite binary64 numbers, read off their
    exponents and mantissas. *)
Lemma SFleb_finite_pos m1 e1 m2 e2 :
  SFleb (S754_finite false m1 e1) (S754_finite false m2 e2) = true →
  e1 < e2 ∨ e1 = e2 ∧ Z.pos m1 ≤ Z.pos m2.
Proof.
  unfold SFleb, SFcompare.
  destruct (Z.compare_spec e1 e2) as [-> | Hlt | Hgt]; [| by left | discriminate].
  fold (Pos.compare m1 m2).
  destruct (Pos.compare_spec m1 m2); intros; [right | right | discriminate]; split; lia.
Qed.

(** A [double] between 0 and 255 truncates to a byte: the cast to
    [unsigned char] is defined on it. *)
Lemma double_to_uchar_defined (d : float) :
  in_byte_range d = true → ∃ z, double_to_uchar d = Some z ∧ is_uchar z.
Proof.
  unfold in_byte_range. intros [Hlo Hhi]%andb_true_iff.
  rewrite FloatAxioms.leb_spec in Hlo, Hhi.
  pose proof (Prim2SF_valid d) as Hv.
  unfold double_to_uchar, trunc_double.
  change (Prim2SF 0) with (S754_zero false) in Hlo.
  change (Prim2SF 255) with (S754_finite false 8972014882652160 (-45)) in Hhi.
  destruct (Prim2SF d) as [s | s | | s m e].
  - exists 0. split; [done | unfold is_uchar; lia].
  - destruct s; simpl in *; discriminate.
  - discriminate.
  - destruct s; [discriminate |].
    apply valid_mantissa_bound in Hv.
    apply SFleb_finite_pos in Hhi as He.
    assert (Hz : 0 ≤ Z.shiftl (Z.pos m) e ≤ 255).
    { rewrite <- (Z.opp_involutive e), Z.shiftl_opp_r, Z.shiftr_div_pow2 by lia.
      split; [apply Z.div_pos; lia |].
      apply Z.lt_succ_r, Z.div_lt_upper_bound; [lia |].
      destruct He as [He | [-> Hm]].
      - assert (2 ^ 46 ≤ 2 ^ (- e)) by (apply Z.pow_le_mono_r; lia). lia.
      - change (2 ^ (- -45)) with 35184372088832. lia. }
    exists (Z.shiftl (Z.pos m) e).
    change (cond_Zopp false ?z) with z. simpl mbind.
    destruct (Z.leb_spec 0 (Z.shiftl (Z.pos m) e)); [| lia].
    destruct (Z.leb_spec (Z.shiftl (Z.pos m) e) 255); [| lia].
    done.
Qed.

(** ** The weighted sum stays within the bytes *)

Lemma is_uchar_bytes z : is_uchar z → z ∈ bytes.
Proof.
  intros Hz.
  change bytes with (Z.of_nat <$> seq 0 256).
  apply list_elem_of_fmap. exists (Z.to_nat z). split.
  - unfold is_uchar in Hz. lia.
  - apply elem_of_seq. unfold is_uchar in Hz. lia.
Qed.

(** Checked on the 256 * 256 * 256 sums of one term of each colour. *)
Lemma all_sums_in_byte_range :
  all_sums in_byte_range red_terms green_terms blue_terms = true.
Proof. vm_compute. reflexivity. Qed.

Lemma all_sums_spec (p : float → bool) (xs ys zs : list float) :
  all_sums p xs ys zs = true →
  ∀ x y z, In x xs → In y ys → In z zs → p (x + y + z)%float = true.
Proof.
  unfold all_sums. intros Hall x y z Hx Hy Hz.
  rewrite forallb_forall in Hall. specialize (Hall x Hx).
  rewrite forallb_forall in Hall. specialize (Hall y Hy).
  rewrite forallb_forall in Hall. exact (Hall z Hz).
Qed.

Lemma red_terms_eq :
  red_terms = (λ z, 0.299 * uchar_to_double z)%float <$> bytes.
Proof. vm_compute. reflexivity. Qed.

Lemma green_terms_eq :
  green_terms = (λ z, 0.587 * uchar_to_double z)%float <$> bytes.
Proof. vm_compute. reflexivity. Qed.

Lemma blue_terms_eq :
  blue_terms = (λ z, 0.114 * uchar_to_double z)%float <$> bytes.
Proof. vm_compute. reflexivity. Qed.

Lemma term_elem (c : float) (terms : list float) (z : Z) :
  terms = (λ z, c * uchar_to_double z)%float <$> bytes →
  is_uchar z → In (c * uchar_to_double z)%float terms.
Proof.
  intros -> Hz. apply list_elem_of_In, list_elem_of_fmap.
  exists z. split; [done | by apply is_uchar_bytes].
Qed.

Lemma weighted_in_byte_range cr cg cb :
  is_uchar cr → is_uchar cg → is_uchar cb →
  in_byte_range (weighted cr cg cb) = true.
Proof.
  intros Hr Hg Hb. unfold weighted.
  apply (all_sums_spec in_byte_range red_terms green_terms blue_terms).
  - exact all_sums_in_byte_range.
  - by apply term_elem; [apply red_terms_eq |].
  - by apply term_elem; [apply green_terms_eq |].
  - by apply term_elem; [apply blue_terms_eq |].
Qed.

(** The conversion of one pixel is defined and gives a byte. *)
Lemma gray_of_luma cr cg cb :
  is_uchar cr → is_uchar cg → is_uchar cb →
  gray_of cr cg cb = Some (luma cr cg cb) ∧ is_uchar (luma cr cg cb).
Proof.
  intros Hr Hg Hb.
  destruct (double_to_uchar_defined (weighted cr cg cb)) as (z & Hz & Hu).
  { by apply weighted_in_byte_range. }
  unfold luma, gray_of. rewrite Hz. done.
Qed.

(** ** The kernels as maps over the channels *)

(** The two kernels that rewrite [gray] from [gray] itself. *)
Lemma gray_map_loop (f : Z → Z) (body : Z → Image → option Image) (img : Image) :
  (∀ i cur, body i cur =
     x ← vec_get (gray cur) i;
     gray' ← vec_set (gray cur) i (f x);
     Some (set_gray cur gray')) →
  length (gray img) = Z.to_nat (Image_size img) →
  for_upto (Image_size img) body img = Some (set_gray img (f <$> gray img)).
Proof.
  intros Hbody Hlen. apply gray_loop_spec; [done | by rewrite length_fmap |].
  intros i cur x Hx _ _ _ _ _ Hcl Hci.
  rewrite list_lookup_fmap in Hx.
  destruct (gray img !! i) as [y |] eqn:Hy; [| done].
  injection Hx as <-.
  rewrite Hbody, vec_get_nat, Hci. simpl.
  rewrite vec_set_nat; [done |].
  rewrite Hcl. by eapply lookup_lt_Some.
Qed.

Lemma adjustBrightness_map img offset :
  length (gray img) = Z.to_nat (Image_size img) →
  adjustBrightness img offset = Some (set_gray img (brighten offset <$> gray img)).
Proof. intros Hlen. by apply gray_map_loop. Qed.

Lemma applyThreshold_map img threshold :
  length (gray img) = Z.to_nat (Image_size img) →
  applyThreshold img threshold = Some (set_gray img (binarize threshold <$> gray img)).
Proof. intros Hlen. by apply gray_map_loop. Qed.

Lemma luma_list_lookup (lr lg lb : list Z) (i : nat) :
  luma_list lr lg lb !! i =
    cr ← lr !! i; cg ← lg !! i; cb ← lb !! i; Some (luma cr cg cb).
Proof.
  unfold luma_list. rewrite lookup_zip_with.
  destruct (lr !! i) as [cr |]; [simpl | done].
  rewrite lookup_zip_with.
  destruct (lg !! i) as [cg |]; [simpl | done].
  by destruct (lb !! i) as [cb |].
Qed.

Lemma luma_list_length (lr lg lb : list Z) (n : nat) :
  length lr = n → length lg = n → length lb = n →
  length (luma_list lr lg lb) = n.
Proof.
  intros Hr Hg Hb. unfold luma_list.
  rewrite length_zip_with, length_zip. lia.
Qed.

Lemma convertToGrayscale_map img :
  Image_wf img →
  convertToGrayscale img =
    Some (set_gray img (luma_list (r img) (g img) (b img))).
Proof.
  intros Hwf. destruct Hwf as [Hsz Hr Hg Hb Hgray Hru Hgu Hbu _].
  pose proof (Image_size_wf img Hsz) as Hsize.
  apply gray_loop_spec.
  - by rewrite Hsize.
  - rewrite Hgray. by apply luma_list_length.
  - intros i cur x Hx _ _ Hcr Hcg Hcb Hcl _.
    rewrite luma_list_lookup in Hx.
    destruct (r img !! i) as [cr |] eqn:Er; [simpl in Hx | done].
    destruct (g img !! i) as [cg |] eqn:Eg; [simpl in Hx | done].
    destruct (b img !! i) as [cb |] eqn:Eb; [simpl in Hx | done].
    injection Hx as <-.
    assert (Hy : gray_of cr cg cb = Some (luma cr cg cb)).
    { apply gray_of_luma.
      - exact (Forall_lookup_1 is_uchar _ _ _ Hru Er).
      - exact (Forall_lookup_1 is_uchar _ _ _ Hgu Eg).
      - exact (Forall_lookup_1 is_uchar _ _ _ Hbu Eb). }
    unfold grayscale_body.
    rewrite !vec_get_nat, Hcr, Hcg, Hcb, Er, Eg, Eb. simpl. rewrite Hy. simpl.
    rewrite vec_set_nat; [done |].
    rewrite Hcl, Hgray, <- Hr. by eapply lookup_lt_Some.
Qed.

Lemma luma_list_bytes (lr lg lb : list Z) :
  Forall is_uchar lr → Forall is_uchar lg → Forall is_uchar lb →
  Forall is_uchar (luma_list lr lg lb).
Proof.
  intros Hr Hg Hb. apply Forall_lookup_2. intros i x Hx.
  rewrite luma_list_lookup in Hx.
  destruct (lr !! i) as [cr |] eqn:Er; [simpl in Hx | done].
  destruct (lg !! i) as [cg |] eqn:Eg; [simpl in Hx | done].
  destruct (lb !! i) as [cb |] eqn:Eb; [simpl in Hx | done].
  injection Hx as <-.
  apply gray_of_luma.
  - exact (Forall_lookup_1 is_uchar _ _ _ Hr Er).
  - exact (Forall_lookup_1 is_uchar _ _ _ Hg Eg).
  - exact (Forall_lookup_1 is_uchar _ _ _ Hb Eb).
Qed.

(** ** The generator *)

Lemma ramp_length k n : length (ramp k n) = n.
Proof. unfold ramp. by rewrite length_fmap, length_seq. Qed.

Lemma ramp_lookup k n (i : nat) :
  (i < n)%nat → ramp k n !! i = Some ((Z.of_nat i * k) `mod` 256).
Proof.
  intros Hi. unfold ramp.
  by rewrite list_lookup_fmap, lookup_seq_lt.
Qed.

Lemma ramp_bytes k n : Forall is_uchar (ramp k n).
Proof.
  unfold ramp. apply Forall_fmap, Forall_forall. intros i _. simpl.
  unfold is_uchar. pose proof (Z.mod_pos_bound (Z.of_nat i * k) 256). lia.
Qed.

Lemma generateImageData_ramp img :
  let n := Z.to_nat (Image_size img) in
  length (r img) = n → length (g img) = n → length (b img) = n →
  generateImageData img =
    Some (mkImage (width img) (height img)
            (ramp 123 n) (ramp 456 n) (ramp 789 n) (gray img)).
Proof.
  intros n Hr Hg Hb.
  set (P := fun (j : nat) (cur : Image) =>
    width cur = width img ∧ height cur = height img ∧ gray cur = gray img ∧
    r cur = take j (ramp 123 n) ++ drop j (r img) ∧
    g cur = take j (ramp 456 n) ++ drop j (g img) ∧
    b cur = take j (ramp 789 n) ++ drop j (b img)).
  assert (Hlen : ∀ k j (v : list Z), length v = n →
            length (take j (ramp k n) ++ drop j v) = n).
  { intros k j v Hv. rewrite length_app, length_take, length_drop, ramp_length. lia. }
  destruct (for_upto_inv generate_body P (Image_size img) img) as (s' & Hrun & Hs').
  - intros j cur Hj (Hw & Hh & Hy & Hcr & Hcg & Hcb). fold n in Hj.
    unfold generate_body. rewrite !stored_byte.
    repeat (rewrite vec_set_nat by (rewrite ?Hcr, ?Hcg, ?Hcb, Hlen; done); simpl).
    eexists. split; [reflexivity |].
    unfold P. simpl. repeat split; try done.
    + rewrite Hcr. apply insert_take_drop; [by rewrite ramp_length | by apply ramp_lookup].
    + rewrite Hcg. apply insert_take_drop; [by rewrite ramp_length | by apply ramp_lookup].
    + rewrite Hcb. apply insert_take_drop; [by rewrite ramp_length | by apply ramp_lookup].
  - unfold P. by rewrite !take_0, !drop_0.
  - unfold generateImageData. rewrite Hrun. f_equal.
    destruct Hs' as (Hw & Hh & Hy & Hcr & Hcg & Hcb). fold n in Hcr, Hcg, Hcb.
    rewrite take_ge, drop_ge, app_nil_r in Hcr by (rewrite ?ramp_length; lia).
    rewrite take_ge, drop_ge, app_nil_r in Hcg by (rewrite ?ramp_length; lia).
    rewrite take_ge, drop_ge, app_nil_r in Hcb by (rewrite ?ramp_length; lia).
    destruct s'; simpl in *. by subst.
Qed.

(** ** The reduction *)

Lemma Zsum_app (l k : list Z) : Zsum (l ++ k) = Zsum l + Zsum k.
Proof. induction l as [| x l IH]; simpl; [done | rewrite IH; lia]. Qed.

Lemma Zsum_replicate (n : nat) (x : Z) : Zsum (replicate n x) = Z.of_nat n * x.
Proof. induction n as [| n IH]; simpl replicate; simpl Zsum; [done | rewrite IH; lia]. Qed.

Lemma Zsum_bytes (l : list Z) :
  Forall is_uchar l → 0 ≤ Zsum l ≤ 255 * Z.of_nat (length l).
Proof.
  induction 1 as [| x l Hx _ IH]; simpl Zsum; simpl length; [lia |].
  unfold is_uchar in Hx. lia.
Qed.

Lemma Image_size_range img : INT_MIN ≤ Image_size img ≤ INT_MAX.
Proof.
  unfold Image_size, int_mul, wrap_int, INT_MIN, INT_MAX.
  pose proof (Z.mod_pos_bound (width img * height img + 2 ^ 31) (2 ^ 32)). lia.
Qed.

(** The 64-bit accumulator holds the exact sum: it never wraps. *)
Lemma sum_loop img :
  length (gray img) = Z.to_nat (Image_size img) →
  Forall is_uchar (gray img) →
  for_upto (Image_size img) (average_body img) 0 = Some (Zsum (gray img)).
Proof.
  intros Hlen Hbytes.
  set (P := fun (j : nat) (sum : Z) => sum = Zsum (take j (gray img))).
  destruct (for_upto_inv (average_body img) P (Image_size img) 0) as (s' & Hrun & Hs').
  - intros j sum Hj ->.
    destruct (lookup_lt_is_Some_2 (gray img) j) as [x Hx]; [lia |].
    exists (Zsum (take j (gray img)) + x). split.
    + unfold average_body. rewrite vec_get_nat, Hx. simpl. f_equal.
      unfold llong_add. apply wrap_llong_id.
      pose proof (Zsum_bytes (take j (gray img)) (Forall_take _ _ _ Hbytes)) as Hs.
      rewrite length_take in Hs.
      pose proof (Forall_lookup_1 is_uchar _ _ _ Hbytes Hx) as Hux.
      pose proof (Image_size_range img) as Hr.
      unfold is_uchar, INT_MIN, INT_MAX in *. lia.
    + unfold P. rewrite (take_S_r _ _ _ Hx), Zsum_app. simpl. lia.
  - done.
  - rewrite Hrun. f_equal. unfold P in Hs'. by rewrite take_ge in Hs' by lia.
Qed.

Lemma calculateAverageGray_sum img :
  length (gray img) = Z.to_nat (Image_size img) →
  Forall is_uchar (gray img) →
  calculateAverageGray img =
    Some (llong_to_double (Zsum (gray img)) / llong_to_double (Image_size img))%float.
Proof.
  intros Hlen Hbytes. unfold calculateAverageGray.
  by rewrite sum_loop.
Qed.

(** ** Binary64 conversion and division of small integers *)

Lemma digits2_pos_lower (p : positive) : 2 ^ (Z.pos (digits2_pos p) - 1) ≤ Z.pos p.
Proof.
  induction p as [p IH | p IH |]; simpl digits2_pos.
  - rewrite Pos2Z.inj_succ. replace (Z.succ (Z.pos (digits2_pos p)) - 1)
      with (Z.succ (Z.pos (digits2_pos p) - 1)) by lia.
    rewrite Z.pow_succ_r by lia. lia.
  - rewrite Pos2Z.inj_succ. replace (Z.succ (Z.pos (digits2_pos p)) - 1)
      with (Z.succ (Z.pos (digits2_pos p) - 1)) by lia.
    rewrite Z.pow_succ_r by lia. lia.
  - reflexivity.
Qed.

Lemma digits2_pos_iter_xO (p q : positive) :
  digits2_pos (Pos.iter xO p q) = (digits2_pos p + q)%positive.
Proof.
  induction q as [| q IH] using Pos.peano_ind.
  - simpl. lia.
  - rewrite Pos.iter_succ. simpl. rewrite IH. lia.
Qed.

Lemma iter_xO_value (p q : positive) :
  Z.pos (Pos.iter xO p q) = Z.pos p * 2 ^ Z.pos q.
Proof.
  induction q as [| q IH] using Pos.peano_ind.
  - simpl. lia.
  - rewrite Pos.iter_succ, Pos2Z.inj_succ, Z.pow_succ_r by lia.
    rewrite Pos2Z.inj_xO, IH. lia.
Qed.

(** A 53-bit mantissa with an exponent in range is already rounded. *)
Lemma binary_round_aux_canonical s m e :
  Z.pos (digits2_pos m) = 53 → -1074 ≤ e ≤ 971 →
  binary_round_aux prec emax s (Z.pos m) e loc_Exact = S754_finite s m e.
Proof.
  intros Hd He.
  unfold binary_round_aux, shr_fexp, fexp, SpecFloat.emin, prec, emax.
  simpl Zdigits2. rewrite Hd.
  replace (Z.max (53 + e - 53) (3 - 1024 - 53) - e) with 0 by lia.
  simpl. rewrite Hd.
  replace (Z.max (53 + e - 53) (3 - 1024 - 53) - e) with 0 by lia.
  simpl.
  destruct (Z.leb_spec e (1024 - 53)); [done | lia].
Qed.

(** The binary64 image of a positive integer of at most 53 bits: the
    integer itself, with its mantissa shifted to 53 bits. *)
Lemma binary_normalize_small (p : positive) :
  Z.pos (digits2_pos p) ≤ 53 →
  ∃ m, binary_normalize prec emax (Z.pos p) 0 false
       = S754_finite false m (Z.pos (digits2_pos p) - 53)
     ∧ Z.pos m = Z.pos p * 2 ^ (53 - Z.pos (digits2_pos p))
     ∧ Z.pos (digits2_pos m) = 53.
Proof.
  intros Hd.
  unfold binary_normalize, binary_round, shl_align, fexp, SpecFloat.emin, prec, emax.
  replace (Z.max (Z.pos (digits2_pos p) + 0 - 53) (3 - 1024 - 53))
    with (Z.pos (digits2_pos p) - 53) by lia.
  rewrite Z.sub_0_r.
  destruct (Z.pos (digits2_pos p) - 53) as [| q | q] eqn:Hq; [| lia |].
  - exists p. split; [| split].
    + apply (binary_round_aux_canonical false p 0); lia.
    + replace (53 - Z.pos (digits2_pos p)) with 0 by lia. lia.
    + lia.
  - exists (Pos.iter xO p q).
    assert (Hdq : Z.pos (digits2_pos (Pos.iter xO p q)) = 53).
    { rewrite digits2_pos_iter_xO. lia. }
    split; [| split].
    + apply (binary_round_aux_canonical false); lia.
    + rewrite iter_xO_value. f_equal. f_equal. lia.
    + done.
Qed.

Lemma Prim2SF_of_Z (z : Z) :
  0 ≤ z < 2 ^ 63 →
  Prim2SF (of_uint63 (Uint63.of_Z z)) = binary_normalize prec emax z 0 false.
Proof.
  intros Hz. rewrite of_uint63_spec. f_equal.
  rewrite Uint63.of_Z_spec. apply Z.mod_small.
  change wB with (2 ^ 63). lia.
Qed.

Lemma div_eucl_exact (k y : Z) : y ≠ 0 → Z.div_eucl (k * y) y = (k, 0).
Proof.
  intros Hy.
  pose proof (Z.div_mul k y Hy) as Hq. pose proof (Z.mod_mul k y Hy) as Hr.
  unfold Z.div, Z.modulo in Hq, Hr.
  destruct (Z.div_eucl (k * y) y) as [q r]. simpl in *. by subst.
Qed.

Lemma new_location_exact (nb : Z) : new_location nb 0 = loc_Exact.
Proof. unfold new_location. by destruct (Z.even nb). Qed.

(** Dividing a binary64 number by another one 255 times smaller gives
    exactly 255: the quotient of the mantissas has no remainder. *)
Lemma SFdiv_255 m1 e1 m2 e2 :
  Z.pos (digits2_pos m1) = 53 → Z.pos (digits2_pos m2) = 53 →
  (e1 - e2 = 8 ∧ Z.pos m1 * 256 = 255 * Z.pos m2)
  ∨ (e1 - e2 = 7 ∧ Z.pos m1 * 128 = 255 * Z.pos m2) →
  SFdiv prec emax (S754_finite false m1 e1) (S754_finite false m2 e2)
  = S754_finite false 8972014882652160 (-45).
Proof.
  intros H1 H2 Hrel.
  unfold SFdiv, SFdiv_core_binary, fexp, SpecFloat.emin, prec, emax.
  simpl Zdigits2. rewrite H1, H2.
  destruct Hrel as [[He Hm] | [He Hm]].
  - replace (Z.min (Z.max (53 + e1 - (53 + e2) - 53) (3 - 1024 - 53)) (e1 - e2))
      with (-45) by lia.
    replace (e1 - e2 - -45) with 53 by lia.
    rewrite Z.shiftl_mul_pow2 by lia.
    change (2 ^ 53) with 9007199254740992.
    replace (Z.pos m1 * 9007199254740992)
      with (8972014882652160 * Z.pos m2) by lia.
    rewrite div_eucl_exact, new_location_exact by lia.
    reflexivity.
  - replace (Z.min (Z.max (53 + e1 - (53 + e2) - 53) (3 - 1024 - 53)) (e1 - e2))
      with (-46) by lia.
    replace (e1 - e2 - -46) with 53 by lia.
    rewrite Z.shiftl_mul_pow2 by lia.
    change (2 ^ 53) with 9007199254740992.
    replace (Z.pos m1 * 9007199254740992)
      with (17944029765304320 * Z.pos m2) by lia.
    rewrite div_eucl_exact, new_location_exact by lia.
    reflexivity.
Qed.

Lemma llong_to_double_nonneg (z : Z) :
  0 ≤ z → llong_to_double z = of_uint63 (Uint63.of_Z z).
Proof.
  intros Hz. unfold llong_to_double.
  destruct (Z.eqb_spec z (- 2 ^ 63)); [lia |].
  destruct (Z.ltb_spec z 0); [lia | done].
Qed.

(** The binary64 image of a positive integer below [2 ^ 53]. *)
Lemma llong_to_double_small (z : Z) :
  0 < z < 2 ^ 53 →
  ∃ m d, Prim2SF (llong_to_double z) = S754_finite false m (d - 53)
       ∧ Z.pos m = z * 2 ^ (53 - d)
       ∧ Z.pos (digits2_pos m) = 53
       ∧ 1 ≤ d ≤ 53 ∧ 2 ^ (d - 1) ≤ z < 2 ^ d.
Proof.
  intros Hz. destruct z as [| p | p]; [lia | | lia].
  rewrite llong_to_double_nonneg, Prim2SF_of_Z by lia.
  pose proof (digits2_pos_bound p) as Hup.
  pose proof (digits2_pos_lower p) as Hlo.
  assert (Hd : Z.pos (digits2_pos p) ≤ 53).
  { assert (Z.pos (digits2_pos p) - 1 < 53); [| lia].
    apply (Z.pow_lt_mono_r_iff 2); lia. }
  destruct (binary_normalize_small p Hd) as (m & Hm & Hval & Hdm).
  exists m, (Z.pos (digits2_pos p)).
  split; [exact Hm |]. split; [exact Hval |]. split; [exact Hdm |].
  split; [lia |]. split; [exact Hlo | exact Hup].
Qed.

(** The mean of [n] pixels that are all 255 is exactly 255. *)
Lemma quotient_all_255 (n : Z) :
  1 ≤ n ≤ INT_MAX →
  (llong_to_double (255 * n) / llong_to_double n)%float = 255%float.
Proof.
  unfold INT_MAX. intros Hn.
  apply Prim2SF_inj. rewrite FloatAxioms.div_spec.
  destruct (llong_to_double_small (255 * n)) as (m1 & d1 & -> & Hm1 & Hd1 & Hr1 & Hb1); [lia |].
  destruct (llong_to_double_small n) as (m2 & d2 & -> & Hm2 & Hd2 & Hr2 & Hb2); [lia |].
  change (Prim2SF 255) with (S754_finite false 8972014882652160 (-45)).
  assert (Hle : d1 ≤ d2 + 8).
  { apply Z.lt_succ_r.
    replace (Z.succ (d2 + 8)) with (Z.succ (d1 - 1) + (d2 + 8 - (d1 - 1))) by lia.
    assert (d1 - 1 < d2 + 8); [| lia].
    apply (Z.pow_lt_mono_r_iff 2); [lia | lia |].
    rewrite Z.pow_add_r by lia. change (2 ^ 8) with 256. lia. }
  assert (Hge : d2 + 7 ≤ d1).
  { assert (d2 + 6 < d1); [| lia].
    apply (Z.pow_lt_mono_r_iff 2); [lia | lia |].
    replace (d2 + 6) with (d2 - 1 + 7) by lia.
    rewrite Z.pow_add_r by lia. change (2 ^ 7) with 128. lia. }
  apply SFdiv_255; [done | done |].
  assert (Hcase : d1 = d2 + 8 ∨ d1 = d2 + 7) by lia.
  destruct Hcase as [-> | ->]; [left | right]; (split; [lia |]).
  - rewrite Hm1, Hm2.
    replace (53 - d2) with (53 - (d2 + 8) + 8) by lia.
    rewrite Z.pow_add_r by lia. change (2 ^ 8) with 256. lia.
  - rewrite Hm1, Hm2.
    replace (53 - d2) with (53 - (d2 + 7) + 7) by lia.
    rewrite Z.pow_add_r by lia. change (2 ^ 7) with 128. lia.
Qed.

(** The mean of [n] pixels that are all 0 is exactly 0. *)
Lemma quotient_all_0 (n : Z) :
  1 ≤ n ≤ INT_MAX →
  (llong_to_double 0 / llong_to_double n)%float = 0%float.
Proof.
  unfold INT_MAX. intros Hn.
  apply Prim2SF_inj. rewrite FloatAxioms.div_spec.
  destruct (llong_to_double_small n) as (m2 & d2 & -> & _); [lia |].
  reflexivity.
Qed.

(** ** Pixel steps *)

Lemma to_uchar_byte z : is_uchar (to_uchar z).
Proof.
  unfold is_uchar, to_uchar. pose proof (Z.mod_pos_bound z 256). lia.
Qed.

Lemma to_uchar_id z : is_uchar z → to_uchar z = z.
Proof. unfold is_uchar, to_uchar. intros Hz. apply Z.mod_small. lia. Qed.

Lemma brighten_byte offset x : is_uchar (brighten offset x).
Proof. apply to_uchar_byte. Qed.

(** While [gray + offset] fits an [int], the pixel step is the saturated
    sum. *)
Lemma brighten_clamp offset x :
  INT_MIN ≤ x + offset ≤ INT_MAX → brighten offset x = clamp (x + offset).
Proof.
  intros Hr. unfold brighten, int_add, clamp.
  rewrite wrap_int_id by done.
  destruct (Z.ltb_spec 255 (x + offset)).
  - simpl. rewrite to_uchar_id by (unfold is_uchar; lia). lia.
  - destruct (Z.ltb_spec (x + offset) 0).
    + rewrite to_uchar_id by (unfold is_uchar; lia). lia.
    + rewrite to_uchar_id by (unfold is_uchar; lia). lia.
Qed.

Lemma binarize_cases threshold x :
  (threshold ≤ x ∧ binarize threshold x = 255)
  ∨ (x < threshold ∧ binarize threshold x = 0).
Proof. unfold binarize. destruct (Z.leb_spec threshold x); [by left | by right]. Qed.

Lemma binarize_byte threshold x : is_uchar (binarize threshold x).
Proof.
  unfold is_uchar. destruct (binarize_cases threshold x) as [[_ ->] | [_ ->]]; lia.
Qed.

(** ** Preservation of the data-model invariant *)

Lemma set_gray_id img : set_gray img (gray img) = img.
Proof. by destruct img. Qed.

Lemma Image_wf_gray_length img :
  Image_wf img → length (gray img) = Z.to_nat (Image_size img).
Proof. intros Hwf. rewrite Image_size_wf; apply Hwf. Qed.

Lemma Image_wf_set_gray img v :
  Image_wf img → length v = length (gray img) → Forall is_uchar v →
  Image_wf (set_gray img v).
Proof.
  intros [] Hlen Hv. constructor; simpl; try done. congruence.
Qed.

Lemma Image_new_wf w h :
  0 ≤ w * h ≤ INT_MAX →
  ∃ img, Image_new w h = Some img ∧ width img = w ∧ height img = h
         ∧ Image_wf img ∧ gray img = replicate (Z.to_nat (w * h)) 0.
Proof.
  intros Hsz. unfold Image_new, int_mul.
  rewrite wrap_int_id by (unfold INT_MIN, INT_MAX in *; lia).
  destruct (Z.ltb_spec (w * h) 0); [lia |].
  eexists. split; [done |]. simpl.
  split; [done |]. split; [done |]. split; [| done].
  constructor; simpl; try done; try apply length_replicate;
    apply Forall_replicate; unfold is_uchar; lia.
Qed.

Lemma generateImageData_wf img :
  Image_wf img →
  generateImageData img =
    Some (mkImage (width img) (height img)
            (ramp 123 (Z.to_nat (width img * height img)))
            (ramp 456 (Z.to_nat (width img * height img)))
            (ramp 789 (Z.to_nat (width img * height img))) (gray img))
  ∧ Image_wf (mkImage (width img) (height img)
            (ramp 123 (Z.to_nat (width img * height img)))
            (ramp 456 (Z.to_nat (width img * height img)))
            (ramp 789 (Z.to_nat (width img * height img))) (gray img)).
Proof.
  intros Hwf. split.
  - rewrite <- (Image_size_wf img) by apply Hwf.
    apply generateImageData_ramp; rewrite Image_size_wf; apply Hwf.
  - destruct Hwf. constructor; simpl; try done;
      try apply ramp_length; apply ramp_bytes.
Qed.

Lemma convertToGrayscale_wf img :
  Image_wf img →
  Image_wf (set_gray img (luma_list (r img) (g img) (b img))).
Proof.
  intros Hwf. apply Image_wf_set_gray; [done | |].
  - destruct Hwf. rewrite wf_gray0. by apply luma_list_length.
  - destruct Hwf. by apply luma_list_bytes.
Qed.

Lemma adjustBrightness_wf img offset :
  Image_wf img → Image_wf (set_gray img (brighten offset <$> gray img)).
Proof.
  intros Hwf. apply Image_wf_set_gray; [done | by rewrite length_fmap |].
  apply Forall_fmap, Forall_forall. intros x _. apply brighten_byte.
Qed.

Lemma applyThreshold_wf img threshold :
  Image_wf img → Image_wf (set_gray img (binarize threshold <$> gray img)).
Proof.
  intros Hwf. apply Image_wf_set_gray; [done | by rewrite length_fmap |].
  apply Forall_fmap, Forall_forall. intros x _. apply binarize_byte.
Qed.

Lemma vec_get_Some (v : list Z) (i x : Z) :
  vec_get v i = Some x ↔ 0 ≤ i ∧ v !! Z.to_nat i = Some x.
Proof.
  unfold vec_get. destruct (Z.leb_spec 0 i).
  - split; [by intros ? | by intros [_ ?]].
  - split; [done | intros [? _]; lia].
Qed.

Lemma vec_get_in_range (v : list Z) (i : Z) :
  0 ≤ i < Z.of_nat (length v) → ∃ x, vec_get v i = Some x.
Proof.
  intros Hi. destruct (lookup_lt_is_Some_2 v (Z.to_nat i)) as [x Hx]; [lia |].
  exists x. apply vec_get_Some. split; [lia | done].
Qed.

(** ** Sample images are well formed *)

Ltac solve_wf :=
  constructor; simpl; unfold INT_MAX;
  try lia; try reflexivity;
  repeat (apply Forall_cons; split; [unfold is_uchar; lia |]); apply Forall_nil_2.

Lemma img_2x2_wf : Image_wf img_2x2.
Proof. solve_wf. Qed.

Lemma img_white_wf : Image_wf img_white.
Proof. solve_wf. Qed.

Lemma img_dark_wf : Image_wf img_dark.
Proof. solve_wf. Qed.

Lemma img_full_wf : Image_wf img_full.
Proof. solve_wf. Qed.

(** * The generator (claim C3) *)

(** C3. For every image, after [generateImageData], every linear index [i]
    in [0, width * height) holds [r[i] = (i * 123) mod 256],
    [g[i] = (i * 456) mod 256] and [b[i] = (i * 789) mod 256]; the
    generator always returns (no error condition), also where the [int]
    product [i * k] wraps around. *)
Theorem C3_generateImageData_values (img : Image) :
  Image_wf img →
  ∃ img', generateImageData img = Some img'
    ∧ ∀ i : Z, 0 ≤ i < width img * height img →
        vec_get (r img') i = Some ((i * 123) `mod` 256)
        ∧ vec_get (g img') i = Some ((i * 456) `mod` 256)
        ∧ vec_get (b img') i = Some ((i * 789) `mod` 256).
Proof.
  intros Hwf. destruct (generateImageData_wf img Hwf) as [Hrun _].
  eexists. split; [exact Hrun |]. simpl.
  intros i Hi.
  assert (Hn : (Z.to_nat i < Z.to_nat (width img * height img))%nat) by lia.
  repeat split; apply vec_get_Some; (split; [lia |]);
    rewrite ramp_lookup by done; by rewrite Z2Nat.id by lia.
Qed.

Lemma C3_generateImageData_values_witness :
  Image_wf img_2x2
  ∧ ∃ img', generateImageData img_2x2 = Some img'
    ∧ ∀ i : Z, 0 ≤ i < width img_2x2 * height img_2x2 →
        vec_get (r img') i = Some ((i * 123) `mod` 256)
        ∧ vec_get (g img') i = Some ((i * 456) `mod` 256)
        ∧ vec_get (b img') i = Some ((i * 789) `mod` 256).
Proof.
  split; [solve_wf | apply (C3_generateImageData_values img_2x2); solve_wf].
Defined.

(** * The grayscale conversion (claim C1) *)

Lemma double_to_uchar_trunc d y :
  double_to_uchar d = Some y → trunc_double d = Some y.
Proof.
  unfold double_to_uchar. destruct (trunc_double d) as [z |]; [simpl | done].
  destruct ((0 <=? z) && (z <=? 255)); [done | done].
Qed.

Lemma in_byte_range_le d : in_byte_range d = true → (d <=? 255)%float = true.
Proof. unfold in_byte_range. by intros [_ ?]%andb_true_iff. Qed.

(** A white pixel converts to 255: the three rounded products add up to
    255.0 exactly, and the truncation keeps it. *)
Lemma C1_white_is_255 :
  Image_wf img_white
  ∧ weighted 255 255 255 = 255%float
  ∧ gray <$> convertToGrayscale img_white = Some [255]
  ∧ gray <$> convertToGrayscale img_white ≠ Some [254].
Proof.
  split; [apply img_white_wf |].
  split; [vm_compute; reflexivity |].
  assert (H : gray <$> convertToGrayscale img_white = Some [255])
    by (vm_compute; reflexivity).
  split; [exact H |]. rewrite H. discriminate.
Qed.

(** C1, as the code has it. For every image with populated channels and
    every pixel index [i] in [0, width * height), after
    [convertToGrayscale] the value [gray[i]] is the binary64 value of
    [0.299 * r[i] + 0.587 * g[i] + 0.114 * b[i]] (each product and each sum
    rounded to nearest) truncated, not rounded, to an 8-bit unsigned
    integer; that weighted sum never exceeds 255; and for
    [r = g = b = 255] the sum is 255.0 and the result is [gray = 255]. *)
Theorem C1_convertToGrayscale_values (img : Image) :
  Image_wf img →
  ∃ img', convertToGrayscale img = Some img'
    ∧ (∀ i : Z, 0 ≤ i < width img * height img →
        ∃ cr cg cb y,
          vec_get (r img) i = Some cr ∧ vec_get (g img) i = Some cg
          ∧ vec_get (b img) i = Some cb
          ∧ vec_get (gray img') i = Some y
          ∧ trunc_double (weighted cr cg cb) = Some y
          ∧ is_uchar y
          ∧ (weighted cr cg cb <=? 255)%float = true)
    ∧ weighted 255 255 255 = 255%float
    ∧ gray_of 255 255 255 = Some 255.
Proof.
  intros Hwf. rewrite (convertToGrayscale_map img Hwf).
  eexists. split; [done |]. simpl.
  split; [| split; vm_compute; reflexivity].
  intros i Hi. destruct Hwf as [Hsz Hr Hg Hb Hgray Hru Hgu Hbu _].
  destruct (lookup_lt_is_Some_2 (r img) (Z.to_nat i)) as [cr Er]; [lia |].
  destruct (lookup_lt_is_Some_2 (g img) (Z.to_nat i)) as [cg Eg]; [lia |].
  destruct (lookup_lt_is_Some_2 (b img) (Z.to_nat i)) as [cb Eb]; [lia |].
  pose proof (Forall_lookup_1 is_uchar _ _ _ Hru Er) as Ur.
  pose proof (Forall_lookup_1 is_uchar _ _ _ Hgu Eg) as Ug.
  pose proof (Forall_lookup_1 is_uchar _ _ _ Hbu Eb) as Ub.
  destruct (gray_of_luma cr cg cb Ur Ug Ub) as [Hy Uy].
  exists cr, cg, cb, (luma cr cg cb).
  repeat split; try (apply vec_get_Some; split; [lia | done]); try apply Uy.
  - apply vec_get_Some. split; [lia |].
    rewrite luma_list_lookup, Er, Eg, Eb. done.
  - by apply double_to_uchar_trunc.
  - by apply in_byte_range_le, weighted_in_byte_range.
Qed.

Lemma C1_convertToGrayscale_values_witness :
  Image_wf img_white
  ∧ ∃ img', convertToGrayscale img_white = Some img'
    ∧ (∀ i : Z, 0 ≤ i < width img_white * height img_white →
        ∃ cr cg cb y,
          vec_get (r img_white) i = Some cr ∧ vec_get (g img_white) i = Some cg
          ∧ vec_get (b img_white) i = Some cb
          ∧ vec_get (gray img') i = Some y
          ∧ trunc_double (weighted cr cg cb) = Some y
          ∧ is_uchar y
          ∧ (weighted cr cg cb <=? 255)%float = true)
    ∧ weighted 255 255 255 = 255%float
    ∧ gray_of 255 255 255 = Some 255.
Proof.
  split; [solve_wf | apply (C1_convertToGrayscale_values img_white); solve_wf].
Defined.

(** * The average (claim C2) *)

Lemma Forall_eq_replicate (c : Z) (l : list Z) :
  Forall (λ x, x = c) l → l = replicate (length l) c.
Proof.
  induction 1 as [| x l -> _ IH]; simpl; [done | by rewrite <- IH].
Qed.

Lemma Zsum_constant (c : Z) (l : list Z) :
  Forall (λ x, x = c) l → Zsum l = Z.of_nat (length l) * c.
Proof.
  intros H. rewrite (Forall_eq_replicate c l H) at 1. apply Zsum_replicate.
Qed.

(** C2. For every image with [width * height > 0], [calculateAverageGray]
    returns the binary64 quotient of the sum of all gray values, held
    exactly by the 64-bit accumulator, by the pixel count: the arithmetic
    mean as a 64-bit float. It is exactly 0.0 when every gray value is 0
    and exactly 255.0 when every gray value is 255. *)
Theorem C2_calculateAverageGray_mean (img : Image) :
  Image_wf img → 0 < width img * height img →
  - 2 ^ 63 ≤ Zsum (gray img) < 2 ^ 63
  ∧ calculateAverageGray img =
      Some (llong_to_double (Zsum (gray img))
            / llong_to_double (width img * height img))%float
  ∧ (Forall (λ x, x = 0) (gray img) → calculateAverageGray img = Some 0%float)
  ∧ (Forall (λ x, x = 255) (gray img) → calculateAverageGray img = Some 255%float).
Proof.
  intros Hwf Hpos.
  pose proof (Image_wf_gray_length img Hwf) as Hlen.
  pose proof (Image_size_wf img (wf_size img Hwf)) as Hsize.
  pose proof (calculateAverageGray_sum img Hlen (wf_gray_bytes img Hwf)) as Hrun.
  rewrite Hsize in Hrun.
  pose proof (Zsum_bytes (gray img) (wf_gray_bytes img Hwf)) as Hsum.
  pose proof (wf_size img Hwf) as Hsz. pose proof (wf_gray img Hwf) as Hg.
  assert (Hn : Z.of_nat (length (gray img)) = width img * height img) by lia.
  split; [unfold INT_MAX in Hsz; lia |].
  split; [exact Hrun |]. split.
  - intros H0. rewrite Hrun, (Zsum_constant 0 _ H0), Z.mul_0_r.
    f_equal. apply quotient_all_0. lia.
  - intros H255. rewrite Hrun, (Zsum_constant 255 _ H255), Hn, Z.mul_comm.
    f_equal. apply quotient_all_255. lia.
Qed.

Lemma C2_calculateAverageGray_mean_witness :
  Image_wf img_full ∧ 0 < width img_full * height img_full
  ∧ Forall (λ x, x = 255) (gray img_full)
  ∧ calculateAverageGray img_full = Some 255%float.
Proof.
  assert (Hwf : Image_wf img_full) by solve_wf.
  assert (Hpos : 0 < width img_full * height img_full) by (simpl; lia).
  assert (Hall : Forall (λ x, x = 255) (gray img_full))
    by (simpl; repeat constructor).
  split; [exact Hwf |]. split; [exact Hpos |]. split; [exact Hall |].
  exact (proj2 (proj2 (proj2 (C2_calculateAverageGray_mean img_full Hwf Hpos))) Hall).
Defined.

(** * The brightness adjustment (claims C4 and C7) *)

(** C4, at the offset where the code departs from it. With
    [offset = INT_MAX] the sum [gray[i] + offset] of the one pixel of
    [img_dark] (gray value 1) does not fit the [int] that holds it: it wraps
    to [INT_MIN] and is clamped to 0, where the saturated sum is 255. *)
Theorem C4_adjustBrightness_int_overflow :
  Image_wf img_dark
  ∧ int_add 1 INT_MAX = INT_MIN
  ∧ gray <$> adjustBrightness img_dark INT_MAX = Some [0]
  ∧ clamp (1 + INT_MAX) = 255.
Proof.
  split; [apply img_dark_wf |]. repeat split; vm_compute; reflexivity.
Qed.

Lemma brighten_zero x : is_uchar x → brighten 0 x = x.
Proof.
  intros Hx. rewrite brighten_clamp.
  - unfold clamp, is_uchar in *. lia.
  - unfold is_uchar, INT_MIN, INT_MAX in *. lia.
Qed.

Lemma brighten_up x : is_uchar x → brighten 1000 x = 255.
Proof.
  intros Hx. rewrite brighten_clamp.
  - unfold clamp, is_uchar in *. lia.
  - unfold is_uchar, INT_MIN, INT_MAX in *. lia.
Qed.

Lemma brighten_down x : is_uchar x → brighten (-1000) x = 0.
Proof.
  intros Hx. rewrite brighten_clamp.
  - unfold clamp, is_uchar in *. lia.
  - unfold is_uchar, INT_MIN, INT_MAX in *. lia.
Qed.

Lemma fmap_bytes_id (f : Z → Z) (l : list Z) :
  Forall is_uchar l → (∀ x, is_uchar x → f x = x) → f <$> l = l.
Proof.
  intros Hl Hf. induction Hl as [| x l Hx _ IH]; [done |].
  by rewrite fmap_cons, Hf, IH.
Qed.

Lemma fmap_bytes_const (f : Z → Z) (c : Z) (l : list Z) :
  Forall is_uchar l → (∀ x, is_uchar x → f x = c) →
  f <$> l = replicate (length l) c.
Proof.
  intros Hl Hf. induction Hl as [| x l Hx _ IH]; [done |].
  rewrite fmap_cons, Hf, IH by done. done.
Qed.

(** C7. For every image, [adjustBrightness(img, 0)] leaves the gray channel
    (and the whole image) unchanged. Adjusting by +1000 sets every gray
    pixel to 255, and adjusting the result by -1000 sets every gray pixel
    to 0: the original gray values are not restored as soon as one of them
    is not 0, so the composition is not a round trip. *)
Theorem C7_adjustBrightness_not_invertible (img : Image) :
  Image_wf img →
  adjustBrightness img 0 = Some img
  ∧ ∃ up down,
      adjustBrightness img 1000 = Some up
      ∧ gray up = replicate (length (gray img)) 255
      ∧ adjustBrightness up (-1000) = Some down
      ∧ gray down = replicate (length (gray img)) 0
      ∧ (∀ (i : nat) x, gray img !! i = Some x → x ≠ 0 → gray down ≠ gray img).
Proof.
  intros Hwf.
  pose proof (Image_wf_gray_length img Hwf) as Hlen.
  pose proof (wf_gray_bytes img Hwf) as Hbytes.
  split.
  - rewrite adjustBrightness_map by done.
    rewrite (fmap_bytes_id _ _ Hbytes brighten_zero). by rewrite set_gray_id.
  - pose proof (adjustBrightness_wf img 1000 Hwf) as Hwf_up.
    rewrite (fmap_bytes_const _ 255 _ Hbytes brighten_up) in Hwf_up.
    exists (set_gray img (replicate (length (gray img)) 255)),
           (set_gray img (replicate (length (gray img)) 0)).
    split; [| split; [done | split; [| split; [done |]]]].
    + rewrite adjustBrightness_map by done.
      by rewrite (fmap_bytes_const _ 255 _ Hbytes brighten_up).
    + rewrite adjustBrightness_map by (by apply Image_wf_gray_length).
      rewrite (fmap_bytes_const _ 0 _ (wf_gray_bytes _ Hwf_up) brighten_down).
      simpl. by rewrite length_replicate.
    + simpl. intros i x Hx Hnz Heq. rewrite <- Heq in Hx.
      apply lookup_replicate in Hx as [-> _]. done.
Qed.

Lemma C7_adjustBrightness_not_invertible_witness :
  Image_wf img_2x2
  ∧ adjustBrightness img_2x2 0 = Some img_2x2
  ∧ ∃ up down,
      adjustBrightness img_2x2 1000 = Some up
      ∧ gray up = replicate (length (gray img_2x2)) 255
      ∧ adjustBrightness up (-1000) = Some down
      ∧ gray down = replicate (length (gray img_2x2)) 0
      ∧ (∀ (i : nat) x, gray img_2x2 !! i = Some x → x ≠ 0 → gray down ≠ gray img_2x2).
Proof.
  split; [solve_wf | apply (C7_adjustBrightness_not_invertible img_2x2); solve_wf].
Defined.

(** * The threshold (claims C5 and C8) *)

(** C5. For every image and every 8-bit threshold [t], [applyThreshold]
    sets [gray[i]] to 255 when [gray[i] >= t] and to 0 otherwise; a pixel
    equal to [t] maps to 255. With [t = 128] the gray values
    [0, 127, 128, 255] become [0, 0, 255, 255]. *)
Theorem C5_applyThreshold_values (img : Image) (t : Z) :
  Image_wf img → is_uchar t →
  ∃ img', applyThreshold img t = Some img'
    ∧ (∀ i : Z, 0 ≤ i < width img * height img →
         ∃ x, vec_get (gray img) i = Some x
            ∧ (t ≤ x → vec_get (gray img') i = Some 255)
            ∧ (x < t → vec_get (gray img') i = Some 0))
    ∧ (∀ i : Z, vec_get (gray img) i = Some t → vec_get (gray img') i = Some 255)
    ∧ gray <$> applyThreshold img_2x2 128 = Some [0; 0; 255; 255].
Proof.
  intros Hwf Ht.
  rewrite (applyThreshold_map img t (Image_wf_gray_length img Hwf)).
  eexists. split; [done |]. simpl.
  assert (Hpix : ∀ (i x : Z), vec_get (gray img) i = Some x →
            vec_get (binarize t <$> gray img) i = Some (binarize t x)).
  { intros i x [Hi Hx]%vec_get_Some. apply vec_get_Some. split; [done |].
    by rewrite list_lookup_fmap, Hx. }
  split; [| split].
  - intros i Hi.
    destruct (vec_get_in_range (gray img) i) as [x Hx].
    { rewrite (wf_gray img Hwf). lia. }
    exists x. split; [done |]. rewrite (Hpix i x Hx).
    destruct (binarize_cases t x) as [[? ->] | [? ->]]; split; intros; try done; lia.
  - intros i Hx. rewrite (Hpix i t Hx).
    destruct (binarize_cases t t) as [[? ->] | [? ->]]; [done | lia].
  - vm_compute. reflexivity.
Qed.

Lemma C5_applyThreshold_values_witness :
  Image_wf img_2x2 ∧ is_uchar 128
  ∧ ∃ img', applyThreshold img_2x2 128 = Some img'
    ∧ (∀ i : Z, 0 ≤ i < width img_2x2 * height img_2x2 →
         ∃ x, vec_get (gray img_2x2) i = Some x
            ∧ (128 ≤ x → vec_get (gray img') i = Some 255)
            ∧ (x < 128 → vec_get (gray img') i = Some 0))
    ∧ (∀ i : Z, vec_get (gray img_2x2) i = Some 128 → vec_get (gray img') i = Some 255)
    ∧ gray <$> applyThreshold img_2x2 128 = Some [0; 0; 255; 255].
Proof.
  split; [solve_wf |]. split; [unfold is_uchar; lia |].
  apply (C5_applyThreshold_values img_2x2 128); [solve_wf | unfold is_uchar; lia].
Defined.

Lemma binarize_idempotent t x :
  t ≤ 255 → 0 ≤ x → binarize t (binarize t x) = binarize t x.
Proof.
  intros Ht Hx. unfold binarize.
  destruct (Z.leb_spec t x).
  - destruct (Z.leb_spec t 255); [done | lia].
  - destruct (Z.leb_spec t 0); [lia | done].
Qed.

(** C8. For every image and every threshold [t] in [1, 255], applying
    [applyThreshold] twice with [t] gives the same image as applying it
    once. *)
Theorem C8_applyThreshold_idempotent (img : Image) (t : Z) :
  Image_wf img → 1 ≤ t ≤ 255 →
  ∃ once, applyThreshold img t = Some once
    ∧ applyThreshold once t = Some once.
Proof.
  intros Hwf Ht.
  pose proof (Image_wf_gray_length img Hwf) as Hlen.
  exists (set_gray img (binarize t <$> gray img)).
  split; [by apply applyThreshold_map |].
  rewrite applyThreshold_map by (simpl; by rewrite length_fmap).
  simpl. unfold set_gray. simpl. f_equal. f_equal.
  rewrite <- list_fmap_compose. apply list_fmap_ext.
  intros i x Hx. simpl. apply binarize_idempotent; [lia |].
  pose proof (Forall_lookup_1 is_uchar _ _ _ (wf_gray_bytes img Hwf) Hx) as Hu.
  unfold is_uchar in Hu. lia.
Qed.

Lemma C8_applyThreshold_idempotent_witness :
  Image_wf img_2x2 ∧ 1 ≤ 128 ≤ 255
  ∧ ∃ once, applyThreshold img_2x2 128 = Some once
    ∧ applyThreshold once 128 = Some once.
Proof.
  split; [solve_wf |]. split; [lia |].
  apply (C8_applyThreshold_idempotent img_2x2 128); [solve_wf | lia].
Defined.

(** * The command line (claim C6) *)

(** C6. Without command-line arguments the program uses [width = 1024] and
    [height = 1024]. With at least one argument it takes the width from the
    first and reads a second one for the height, whether or not it was
    given: with two arguments or more the dimensions are their [atoi]
    values, and with exactly one argument the second read finds no
    argument ([argv[2]] is then [argv[argc]], the null pointer, handed to
    [atoi]), so the result is undefined: neither an error nor a default. *)
Theorem C6_command_line (atoi : string → Z) :
  parse_dimensions atoi [] = Some (1024, 1024)
  ∧ (∀ prog, parse_dimensions atoi [prog] = Some (1024, 1024))
  ∧ (∀ prog a1 a2 rest,
       parse_dimensions atoi (prog :: a1 :: a2 :: rest) = Some (atoi a1, atoi a2))
  ∧ (∀ prog a1, parse_dimensions atoi [prog; a1] = None).
Proof.
  repeat split; try reflexivity.
  intros prog a1 a2 rest. unfold parse_dimensions.
  destruct (Z.ltb_spec 1 (Z.of_nat (length (prog :: a1 :: a2 :: rest)))) as [_ | Hlen].
  - reflexivity.
  - simpl length in Hlen. lia.
Qed.

(** * The data-model invariant and the frame of each operation
      (claims C9 and C10) *)







(** C10. Each operation writes its own output only: [generateImageData]
    leaves [gray] as it was; [convertToGrayscale], [adjustBrightness] and
    [applyThreshold] leave [r], [g] and [b] as they were; none changes
    [width] or [height]. [calculateAverageGray] reads the image through a
    constant reference and only returns a number. *)
Theorem C10_frame (img : Image) :
  Image_wf img →
  (∃ img', generateImageData img = Some img'
     ∧ gray img' = gray img
     ∧ width img' = width img ∧ height img' = height img)
  ∧ (∃ img', convertToGrayscale img = Some img'
     ∧ r img' = r img ∧ g img' = g img ∧ b img' = b img
     ∧ width img' = width img ∧ height img' = height img)
  ∧ (∃ avg, calculateAverageGray img = Some avg)
  ∧ (∀ offset, ∃ img', adjustBrightness img offset = Some img'
     ∧ r img' = r img ∧ g img' = g img ∧ b img' = b img
     ∧ width img' = width img ∧ height img' = height img)
  ∧ (∀ threshold, ∃ img', applyThreshold img threshold = Some img'
     ∧ r img' = r img ∧ g img' = g img ∧ b img' = b img
     ∧ width img' = width img ∧ height img' = height img).
Proof.
  intros Hwf. pose proof (Image_wf_gray_length img Hwf) as Hlen.
  repeat split.
  - destruct (generateImageData_wf img Hwf) as [Hrun _].
    eexists. split; [exact Hrun |]. done.
  - eexists. split; [by apply convertToGrayscale_map |]. done.
  - eexists. apply calculateAverageGray_sum; [done | apply Hwf].
  - intros offset. eexists. split; [by apply adjustBrightness_map |]. done.
  - intros threshold. eexists. split; [by apply applyThreshold_map |]. done.
Qed.

Lemma C10_frame_witness :
  Image_wf img_2x2
  ∧ (∃ img', generateImageData img_2x2 = Some img'
     ∧ gray img' = gray img_2x2
     ∧ width img' = width img_2x2 ∧ height img' = height img_2x2)
  ∧ (∀ offset, ∃ img', adjustBrightness img_2x2 offset = Some img'
     ∧ r img' = r img_2x2 ∧ g img' = g img_2x2 ∧ b img' = b img_2x2
     ∧ width img' = width img_2x2 ∧ height img' = height img_2x2).
Proof.
  assert (Hwf : Image_wf img_2x2) by solve_wf.
  split; [exact Hwf |].
  split; [exact (proj1 (C10_frame img_2x2 Hwf)) |].
  exact (proj1 (proj2 (proj2 (proj2 (C10_frame img_2x2 Hwf))))).
Defined.

(** * Further properties of the brightness adjustment *)

Lemma clamp_byte z : is_uchar (clamp z).
Proof. unfold is_uchar, clamp. lia. Qed.

Lemma safe_offset offset x :
  is_uchar x → INT_MIN ≤ offset ≤ INT_MAX - 255 →
  INT_MIN ≤ x + offset ≤ INT_MAX.
Proof. unfold is_uchar, INT_MIN, INT_MAX. lia. Qed.

Lemma fmap_bytes_ext (f h : Z → Z) (l : list Z) :
  Forall is_uchar l → (∀ x, is_uchar x → f x = h x) → f <$> l = h <$> l.
Proof.
  intros Hl Hf. induction Hl as [| x l Hx _ IH]; [done |].
  by rewrite !fmap_cons, Hf, IH.
Qed.

Lemma adjustBrightness_saturated (img : Image) (offset : Z) :
  Image_wf img → INT_MIN ≤ offset ≤ INT_MAX - 255 →
  adjustBrightness img offset =
    Some (set_gray img ((λ x, clamp (x + offset)) <$> gray img)).
Proof.
  intros Hwf Hoff.
  rewrite adjustBrightness_map by (by apply Image_wf_gray_length).
  do 2 f_equal. apply fmap_bytes_ext; [apply Hwf |].
  intros x Hx. by apply brighten_clamp, safe_offset.
Qed.

(** X1. For every offset between [INT_MIN] and [INT_MAX - 255] the
    adjustment is the saturated sum: every gray pixel becomes
    [gray[i] + offset] clamped to [0, 255]. *)
Theorem X1_adjustBrightness_saturates (img : Image) (offset : Z) :
  Image_wf img → INT_MIN ≤ offset ≤ INT_MAX - 255 →
  adjustBrightness img offset =
    Some (set_gray img ((λ x, clamp (x + offset)) <$> gray img)).
Proof.
  intros Hwf Hoff.
  rewrite adjustBrightness_map by (by apply Image_wf_gray_length).
  f_equal. f_equal. apply fmap_bytes_ext; [apply Hwf |].
  intros x Hx. by apply brighten_clamp, safe_offset.
Qed.

Lemma X1_adjustBrightness_saturates_witness :
  Image_wf img_2x2 ∧ INT_MIN ≤ -100 ≤ INT_MAX - 255
  ∧ adjustBrightness img_2x2 (-100) =
      Some (set_gray img_2x2 ((λ x, clamp (x + -100)) <$> gray img_2x2)).
Proof.
  assert (Hwf : Image_wf img_2x2) by solve_wf.
  assert (Hoff : INT_MIN ≤ -100 ≤ INT_MAX - 255) by (unfold INT_MIN, INT_MAX; lia).
  split; [exact Hwf |]. split; [exact Hoff |].
  exact (X1_adjustBrightness_saturates img_2x2 (-100) Hwf Hoff).
Defined.

(** X2. The adjustment keeps the order of the pixels: for an offset between
    [INT_MIN] and [INT_MAX - 255], a pixel not brighter than another before
    is not brighter after; a non-negative offset darkens no pixel and a
    non-positive offset brightens none. *)
Theorem X2_adjustBrightness_monotone (img : Image) (offset : Z) :
  Image_wf img → INT_MIN ≤ offset ≤ INT_MAX - 255 →
  ∃ img', adjustBrightness img offset = Some img'
    ∧ ∀ (i j : nat) x y, gray img !! i = Some x → gray img !! j = Some y →
        ∃ x' y', gray img' !! i = Some x' ∧ gray img' !! j = Some y'
          ∧ (x ≤ y → x' ≤ y')
          ∧ (0 ≤ offset → x ≤ x') ∧ (offset ≤ 0 → x' ≤ x).
Proof.
  intros Hwf Hoff. rewrite (adjustBrightness_saturated img offset Hwf Hoff).
  eexists. split; [done |]. simpl. intros i j x y Hx Hy.
  exists (clamp (x + offset)), (clamp (y + offset)).
  rewrite !list_lookup_fmap, Hx, Hy. split; [done |]. split; [done |].
  pose proof (Forall_lookup_1 is_uchar _ _ _ (wf_gray_bytes img Hwf) Hx) as Ux.
  unfold clamp, is_uchar in *. lia.
Qed.

Lemma X2_adjustBrightness_monotone_witness :
  Image_wf img_2x2 ∧ INT_MIN ≤ 20 ≤ INT_MAX - 255
  ∧ ∃ img', adjustBrightness img_2x2 20 = Some img'
    ∧ ∀ (i j : nat) x y, gray img_2x2 !! i = Some x → gray img_2x2 !! j = Some y →
        ∃ x' y', gray img' !! i = Some x' ∧ gray img' !! j = Some y'
          ∧ (x ≤ y → x' ≤ y')
          ∧ (0 ≤ 20 → x ≤ x') ∧ (20 ≤ 0 → x' ≤ x).
Proof.
  assert (Hwf : Image_wf img_2x2) by solve_wf.
  assert (Hoff : INT_MIN ≤ 20 ≤ INT_MAX - 255) by (unfold INT_MIN, INT_MAX; lia).
  split; [exact Hwf |]. split; [exact Hoff |].
  exact (X2_adjustBrightness_monotone img_2x2 20 Hwf Hoff).
Defined.

(** X3. Two adjustments in the same direction add up: adjusting by [a] and
    then by [b], both non-negative or both non-positive, gives the image
    of one adjustment by [a + b] (while [a + b] stays between [INT_MIN]
    and [INT_MAX - 255]). *)
Theorem X3_adjustBrightness_compose (img : Image) (a b : Z) :
  Image_wf img →
  (0 ≤ a ∧ 0 ≤ b) ∨ (a ≤ 0 ∧ b ≤ 0) →
  INT_MIN ≤ a + b ≤ INT_MAX - 255 →
  adjustBrightness img a ≫= (λ img1, adjustBrightness img1 b)
  = adjustBrightness img (a + b).
Proof.
  intros Hwf Hsign Hsum.
  assert (Ha : INT_MIN ≤ a ≤ INT_MAX - 255) by (unfold INT_MIN, INT_MAX in *; lia).
  assert (Hb : INT_MIN ≤ b ≤ INT_MAX - 255) by (unfold INT_MIN, INT_MAX in *; lia).
  rewrite (adjustBrightness_saturated img a Hwf Ha). simpl.
  assert (Hwf1 : Image_wf (set_gray img ((λ x, clamp (x + a)) <$> gray img))).
  { apply Image_wf_set_gray; [done | by rewrite length_fmap |].
    apply Forall_fmap, Forall_forall. intros x _. apply clamp_byte. }
  rewrite (adjustBrightness_saturated _ b Hwf1 Hb).
  rewrite (adjustBrightness_saturated img (a + b) Hwf Hsum).
  unfold set_gray. simpl. f_equal. f_equal.
  rewrite <- list_fmap_compose. apply fmap_bytes_ext; [apply Hwf |].
  intros x Hx. simpl. unfold clamp, is_uchar in *. lia.
Qed.

Lemma X3_adjustBrightness_compose_witness :
  Image_wf img_2x2 ∧ ((0 ≤ 20 ∧ 0 ≤ 30) ∨ (20 ≤ 0 ∧ 30 ≤ 0))
  ∧ INT_MIN ≤ 20 + 30 ≤ INT_MAX - 255
  ∧ adjustBrightness img_2x2 20 ≫= (λ img1, adjustBrightness img1 30)
    = adjustBrightness img_2x2 (20 + 30).
Proof.
  assert (Hwf : Image_wf img_2x2) by solve_wf.
  assert (Hs : (0 ≤ 20 ∧ 0 ≤ 30) ∨ (20 ≤ 0 ∧ 30 ≤ 0)) by (left; lia).
  assert (Hr : INT_MIN ≤ 20 + 30 ≤ INT_MAX - 255) by (unfold INT_MIN, INT_MAX; lia).
  split; [exact Hwf |]. split; [exact Hs |]. split; [exact Hr |].
  exact (X3_adjustBrightness_compose img_2x2 20 30 Hwf Hs Hr).
Defined.

Lemma brighten_wraps offset x :
  is_uchar x → INT_MAX - 255 < offset ≤ INT_MAX →
  brighten offset x = if INT_MAX - offset <? x then 0 else 255.
Proof.
  intros Hx Hoff. unfold is_uchar, INT_MAX in *.
  destruct (Z.ltb_spec (2147483647 - offset) x) as [Hover | Hfit].
  - unfold brighten, int_add, wrap_int.
    replace ((x + offset + 2 ^ 31) `mod` 2 ^ 32) with (x + offset + 2 ^ 31 - 2 ^ 32).
    + destruct (Z.ltb_spec 255 (x + offset + 2 ^ 31 - 2 ^ 32 - 2 ^ 31)); [lia |].
      destruct (Z.ltb_spec (x + offset + 2 ^ 31 - 2 ^ 32 - 2 ^ 31) 0); [done | lia].
    + apply Z.mod_unique with 1; lia.
  - rewrite brighten_clamp by (unfold INT_MIN, INT_MAX; lia).
    unfold clamp. lia.
Qed.

(** X4. Above [INT_MAX - 255] the [int] sum can wrap: for such an offset a
    pixel [x] with [x + offset > INT_MAX] becomes 0, and only the pixels
    with [x <= INT_MAX - offset] become 255. *)
Theorem X4_adjustBrightness_wraps (img : Image) (offset : Z) :
  Image_wf img → INT_MAX - 255 < offset ≤ INT_MAX →
  adjustBrightness img offset =
    Some (set_gray img ((λ x, if INT_MAX - offset <? x then 0 else 255) <$> gray img)).
Proof.
  intros Hwf Hoff.
  rewrite adjustBrightness_map by (by apply Image_wf_gray_length).
  f_equal. f_equal. apply fmap_bytes_ext; [apply Hwf |].
  intros x Hx. by apply brighten_wraps.
Qed.

Lemma X4_adjustBrightness_wraps_witness :
  Image_wf img_2x2 ∧ INT_MAX - 255 < INT_MAX - 127 ≤ INT_MAX
  ∧ adjustBrightness img_2x2 (INT_MAX - 127) =
      Some (set_gray img_2x2
        ((λ x, if INT_MAX - (INT_MAX - 127) <? x then 0 else 255) <$> gray img_2x2)).
Proof.
  assert (Hwf : Image_wf img_2x2) by solve_wf.
  assert (Hoff : INT_MAX - 255 < INT_MAX - 127 ≤ INT_MAX) by (unfold INT_MAX; lia).
  split; [exact Hwf |]. split; [exact Hoff |].
  exact (X4_adjustBrightness_wraps img_2x2 (INT_MAX - 127) Hwf Hoff).
Defined.

(** * Further properties of the threshold *)

(** X5. The threshold leaves only the two values 0 and 255 in the gray
    channel, and applying it again with the same threshold changes
    nothing, for every byte threshold, 0 included; with threshold 0 every
    pixel becomes 255. *)
Theorem X5_applyThreshold_binary (img : Image) (t : Z) :
  Image_wf img → is_uchar t →
  ∃ once, applyThreshold img t = Some once
    ∧ Forall (λ x, x = 0 ∨ x = 255) (gray once)
    ∧ applyThreshold once t = Some once
    ∧ (t = 0 → gray once = replicate (length (gray img)) 255).
Proof.
  intros Hwf Ht.
  pose proof (Image_wf_gray_length img Hwf) as Hlen.
  pose proof (wf_gray_bytes img Hwf) as Hbytes.
  exists (set_gray img (binarize t <$> gray img)).
  split; [by apply applyThreshold_map |]. split; [| split].
  - simpl. apply Forall_fmap, Forall_forall. intros x _. simpl.
    destruct (binarize_cases t x) as [[_ ->] | [_ ->]]; [by right | by left].
  - rewrite applyThreshold_map by (simpl; by rewrite length_fmap).
    unfold set_gray. simpl. f_equal. f_equal.
    rewrite <- list_fmap_compose. apply fmap_bytes_ext; [done |].
    intros x Hx. simpl. unfold is_uchar in *. apply binarize_idempotent; lia.
  - intros ->. simpl. apply fmap_bytes_const; [done |].
    intros x Hx. unfold binarize, is_uchar in *.
    destruct (Z.leb_spec 0 x); [done | lia].
Qed.

Lemma X5_applyThreshold_binary_witness :
  Image_wf img_2x2 ∧ is_uchar 0
  ∧ ∃ once, applyThreshold img_2x2 0 = Some once
    ∧ Forall (λ x, x = 0 ∨ x = 255) (gray once)
    ∧ applyThreshold once 0 = Some once
    ∧ (0 = 0 → gray once = replicate (length (gray img_2x2)) 255).
Proof.
  assert (Hwf : Image_wf img_2x2) by solve_wf.
  assert (Ht : is_uchar 0) by (unfold is_uchar; lia).
  split; [exact Hwf |]. split; [exact Ht |].
  exact (X5_applyThreshold_binary img_2x2 0 Hwf Ht).
Defined.

(** X6. Brightening and then thresholding is one threshold, lowered by the
    offset: after [adjustBrightness(img, offset)], [applyThreshold] with
    [t] in [1, 255] gives what [applyThreshold] with [t - offset] gives on
    the original image, when [t - offset] is again a byte. The pair
    (20, 128) of [main] is a threshold at 108. *)
Theorem X6_brightness_then_threshold (img : Image) (offset t : Z) :
  Image_wf img → INT_MIN ≤ offset ≤ INT_MAX - 255 → 1 ≤ t ≤ 255 →
  is_uchar (t - offset) →
  adjustBrightness img offset ≫= (λ img1, applyThreshold img1 t)
  = applyThreshold img (t - offset).
Proof.
  intros Hwf Hoff Ht _.
  pose proof (Image_wf_gray_length img Hwf) as Hlen.
  rewrite (adjustBrightness_saturated img offset Hwf Hoff). simpl.
  rewrite applyThreshold_map by (simpl; by rewrite length_fmap).
  rewrite applyThreshold_map by done.
  unfold set_gray. simpl. f_equal. f_equal.
  rewrite <- list_fmap_compose. apply fmap_bytes_ext; [apply Hwf |].
  intros x Hx. simpl. unfold binarize, clamp, is_uchar in *.
  destruct (Z.leb_spec t (Z.max 0 (Z.min 255 (x + offset)))),
           (Z.leb_spec (t - offset) x); try done; lia.
Qed.

Lemma X6_brightness_then_threshold_witness :
  Image_wf img_2x2 ∧ INT_MIN ≤ 20 ≤ INT_MAX - 255 ∧ 1 ≤ 128 ≤ 255
  ∧ is_uchar (128 - 20)
  ∧ adjustBrightness img_2x2 20 ≫= (λ img1, applyThreshold img1 128)
    = applyThreshold img_2x2 (128 - 20).
Proof.
  assert (Hwf : Image_wf img_2x2) by solve_wf.
  assert (Hoff : INT_MIN ≤ 20 ≤ INT_MAX - 255) by (unfold INT_MIN, INT_MAX; lia).
  assert (Ht : 1 ≤ 128 ≤ 255) by lia.
  assert (Hb : is_uchar (128 - 20)) by (unfold is_uchar; lia).
  split; [exact Hwf |]. split; [exact Hoff |]. split; [exact Ht |].
  split; [exact Hb |].
  exact (X6_brightness_then_threshold img_2x2 20 128 Hwf Hoff Ht Hb).
Defined.

(** * Further properties of the average *)

(** X7. On an image without pixels ([width * height = 0]) the average is
    the division 0.0 / 0.0: [calculateAverageGray] returns NaN, it does
    not fail. *)
Theorem X7_calculateAverageGray_empty (img : Image) :
  Image_wf img → width img * height img = 0 →
  calculateAverageGray img = Some nan.
Proof.
  intros Hwf Hzero.
  rewrite calculateAverageGray_sum
    by (apply Image_wf_gray_length || apply wf_gray_bytes; done).
  rewrite (Image_size_wf img (wf_size img Hwf)), Hzero.
  assert (Hnil : gray img = []).
  { apply nil_length_inv. rewrite (wf_gray img Hwf), Hzero. done. }
  rewrite Hnil. vm_compute. reflexivity.
Qed.

Lemma X7_calculateAverageGray_empty_witness :
  Image_wf (mkImage 0 5 [] [] [] []) ∧ 0 * 5 = 0
  ∧ calculateAverageGray (mkImage 0 5 [] [] [] []) = Some nan.
Proof.
  assert (Hwf : Image_wf (mkImage 0 5 [] [] [] [])) by solve_wf.
  split; [exact Hwf |]. split; [reflexivity |].
  exact (X7_calculateAverageGray_empty (mkImage 0 5 [] [] [] []) Hwf eq_refl).
Defined.

(** * The stages of [main] together *)

Lemma Image_new_zero w h :
  0 ≤ w * h ≤ INT_MAX →
  Image_new w h =
    Some (mkImage w h (replicate (Z.to_nat (w * h)) 0) (replicate (Z.to_nat (w * h)) 0)
            (replicate (Z.to_nat (w * h)) 0) (replicate (Z.to_nat (w * h)) 0)).
Proof.
  intros Hsz. unfold Image_new, int_mul.
  rewrite wrap_int_id by (unfold INT_MIN, INT_MAX in *; lia).
  destruct (Z.ltb_spec (w * h) 0); [lia | done].
Qed.

Lemma Image_new_negative w h :
  INT_MIN ≤ w * h < 0 → Image_new w h = None.
Proof.
  intros Hsz. unfold Image_new, int_mul.
  rewrite wrap_int_id by (unfold INT_MIN, INT_MAX in *; lia).
  destruct (Z.ltb_spec (w * h) 0); [done | lia].
Qed.

(** X8. For dimensions whose product fits an [int], the five stages of
    [main] all complete. The image at the end holds the three generated
    ramps and a gray channel that is 255 where the gray value of the
    generated pixel is at least 108 and 0 elsewhere; the average that is
    printed is the binary64 quotient of the sum of these gray values by
    the pixel count. *)
Theorem X8_pipeline_result (w h : Z) :
  0 ≤ w * h ≤ INT_MAX →
  let n := Z.to_nat (w * h) in
  let lum := luma_list (ramp 123 n) (ramp 456 n) (ramp 789 n) in
  pipeline w h =
    Some ((llong_to_double (Zsum lum) / llong_to_double (w * h))%float,
          mkImage w h (ramp 123 n) (ramp 456 n) (ramp 789 n)
            ((λ y, if 108 <=? y then 255 else 0) <$> lum)).
Proof.
  intros Hsz n lum. unfold pipeline.
  rewrite (Image_new_zero w h Hsz). fold n. simpl.
  set (img0 := mkImage w h (replicate n 0) (replicate n 0) (replicate n 0) (replicate n 0)).
  assert (Hwf0 : Image_wf img0).
  { constructor; simpl; try done; try apply length_replicate;
      apply Forall_replicate; unfold is_uchar; lia. }
  destruct (generateImageData_wf img0 Hwf0) as [Hgen Hwf1].
  rewrite Hgen. simpl. fold n in Hwf1 |- *.
  set (img1 := mkImage w h (ramp 123 n) (ramp 456 n) (ramp 789 n) (replicate n 0)) in *.
  rewrite (convertToGrayscale_map img1 Hwf1). simpl. fold lum.
  pose proof (convertToGrayscale_wf img1 Hwf1) as Hwf2. simpl in Hwf2. fold lum in Hwf2.
  set (img2 := set_gray img1 lum) in *.
  rewrite (calculateAverageGray_sum img2)
    by (apply Image_wf_gray_length || apply wf_gray_bytes; done).
  rewrite (Image_size_wf img2 (wf_size img2 Hwf2)). simpl.
  assert (H20 : INT_MIN ≤ 20 ≤ INT_MAX - 255) by (unfold INT_MIN, INT_MAX; lia).
  rewrite (adjustBrightness_saturated img2 20 Hwf2 H20). simpl.
  assert (Hwf3 : Image_wf (set_gray img2 ((λ x, clamp (x + 20)) <$> lum))).
  { apply Image_wf_set_gray; [done | by rewrite length_fmap |].
    apply Forall_fmap, Forall_forall. intros x _. apply clamp_byte. }
  rewrite applyThreshold_map by (by apply Image_wf_gray_length).
  simpl. do 3 f_equal. rewrite <- list_fmap_compose.
  apply fmap_bytes_ext; [apply (wf_gray_bytes img2 Hwf2) |].
  intros y Hy. simpl. unfold binarize, clamp, is_uchar in *.
  destruct (Z.leb_spec 128 (Z.max 0 (Z.min 255 (y + 20)))),
           (Z.leb_spec 108 y); try done; lia.
Qed.

Lemma X8_pipeline_result_witness :
  0 ≤ 2 * 2 ≤ INT_MAX
  ∧ pipeline 2 2 =
      Some ((llong_to_double
               (Zsum (luma_list (ramp 123 (Z.to_nat (2 * 2))) (ramp 456 (Z.to_nat (2 * 2)))
                        (ramp 789 (Z.to_nat (2 * 2)))))
             / llong_to_double (2 * 2))%float,
            mkImage 2 2 (ramp 123 (Z.to_nat (2 * 2))) (ramp 456 (Z.to_nat (2 * 2)))
              (ramp 789 (Z.to_nat (2 * 2)))
              ((λ y, if 108 <=? y then 255 else 0)
                 <$> luma_list (ramp 123 (Z.to_nat (2 * 2))) (ramp 456 (Z.to_nat (2 * 2)))
                       (ramp 789 (Z.to_nat (2 * 2))))).
Proof.
  assert (Hsz : 0 ≤ 2 * 2 ≤ INT_MAX) by (unfold INT_MAX; lia).
  split; [exact Hsz |].
  exact (X8_pipeline_result 2 2 Hsz).
Defined.

Lemma pipeline_completes (w h : Z) :
  0 ≤ w * h ≤ INT_MAX → ∃ res, pipeline w h = Some res.
Proof.
  intros Hsz. unfold pipeline.
  destruct (Image_new_wf w h Hsz) as (img0 & -> & _ & _ & Hwf0 & _). simpl.
  destruct (generateImageData_wf img0 Hwf0) as [-> Hwf1]. simpl.
  rewrite convertToGrayscale_map by done. simpl.
  pose proof (convertToGrayscale_wf _ Hwf1) as Hwf2.
  rewrite calculateAverageGray_sum
    by (apply Image_wf_gray_length || apply wf_gray_bytes; done).
  simpl.
  rewrite adjustBrightness_map by (by apply Image_wf_gray_length). simpl.
  pose proof (adjustBrightness_wf _ 20 Hwf2) as Hwf3.
  rewrite applyThreshold_map by (by apply Image_wf_gray_length). simpl.
  by eexists.
Qed.

Lemma main_completes atoi argv w h res :
  parse_dimensions atoi argv = Some (w, h) → pipeline w h = Some res →
  main atoi argv = Some 0.
Proof. intros Hp Hr. unfold main. rewrite Hp. simpl. by rewrite Hr. Qed.

Lemma main_stops atoi argv w h :
  parse_dimensions atoi argv = Some (w, h) → pipeline w h = None →
  main atoi argv = None.
Proof. intros Hp Hr. unfold main. rewrite Hp. simpl. by rewrite Hr. Qed.

Lemma parse_two_arguments atoi prog a1 a2 rest :
  parse_dimensions atoi (prog :: a1 :: a2 :: rest) = Some (atoi a1, atoi a2).
Proof.
  unfold parse_dimensions.
  destruct (Z.ltb_spec 1 (Z.of_nat (length (prog :: a1 :: a2 :: rest)))) as [_ | Hlen];
    [done | simpl length in Hlen; lia].
Qed.

(** X9. The exit code of [main]. Without arguments, and with two arguments
    or more whose [atoi] values have a product between 0 and [INT_MAX],
    the program runs all its stages and returns 0. With a product that is
    negative (down to [INT_MIN]) the constructor's [resize] throws and the
    program does not reach [return 0]; neither does it with exactly one
    argument. *)
Theorem X9_main_exit_code (atoi : string → Z) :
  main atoi [] = Some 0
  ∧ (∀ prog, main atoi [prog] = Some 0)
  ∧ (∀ prog a1 a2 rest, 0 ≤ atoi a1 * atoi a2 ≤ INT_MAX →
       main atoi (prog :: a1 :: a2 :: rest) = Some 0)
  ∧ (∀ prog a1 a2 rest, INT_MIN ≤ atoi a1 * atoi a2 < 0 →
       main atoi (prog :: a1 :: a2 :: rest) = None)
  ∧ (∀ prog a1, main atoi [prog; a1] = None).
Proof.
  assert (Hdef : 0 ≤ 1024 * 1024 ≤ INT_MAX) by (unfold INT_MAX; lia).
  destruct (pipeline_completes 1024 1024 Hdef) as [res Hres].
  split; [| split; [| split; [| split]]].
  - eapply main_completes; [reflexivity | exact Hres].
  - intros prog. eapply main_completes; [reflexivity | exact Hres].
  - intros prog a1 a2 rest Hsz.
    destruct (pipeline_completes _ _ Hsz) as [res' Hres'].
    eapply main_completes; [apply parse_two_arguments | exact Hres'].
  - intros prog a1 a2 rest Hsz.
    eapply main_stops; [apply parse_two_arguments |].
    unfold pipeline. by rewrite (Image_new_negative _ _ Hsz).
  - intros prog a1. reflexivity.
Qed.

Lemma X9_main_exit_code_witness :
  0 ≤ (λ _ : string, 3) EmptyString * (λ _ : string, 3) EmptyString ≤ INT_MAX
  ∧ main (λ _, 3) [EmptyString; EmptyString; EmptyString] = Some 0.
Proof.
  assert (Hsz : 0 ≤ (λ _ : string, 3) EmptyString * (λ _ : string, 3) EmptyString ≤ INT_MAX)
    by (unfold INT_MAX; simpl; lia).
  split; [exact Hsz |].
  exact (proj1 (proj2 (proj2 (X9_main_exit_code (λ _, 3))))
           EmptyString EmptyString EmptyString [] Hsz).
Defined.

(** * Further properties of the generator and of the conversion *)

Lemma ramp_period k n (p i : nat) :
  (Z.of_nat p * k) `mod` 256 = 0 → (i + p < n)%nat →
  ramp k n !! (i + p)%nat = ramp k n !! i.
Proof.
  intros Hp Hi. rewrite !ramp_lookup by lia. f_equal.
  rewrite Nat2Z.inj_add, Z.mul_add_distr_r.
  rewrite <- Zplus_mod_idemp_r, Hp. f_equal. lia.
Qed.

(** X10. The generated data depend on the dimensions only and repeat: the
    generator gives any two images of the same dimensions the same three
    colour channels, whatever they held before; all three channels have
    period 256 along the linear index, the green channel even has period
    32, and every green value is a multiple of 8. *)
Theorem X10_generateImageData_structure (img1 img2 : Image) :
  Image_wf img1 → Image_wf img2 →
  width img1 = width img2 → height img1 = height img2 →
  ∃ out1 out2,
    generateImageData img1 = Some out1 ∧ generateImageData img2 = Some out2
    ∧ r out1 = r out2 ∧ g out1 = g out2 ∧ b out1 = b out2
    ∧ (∀ i : nat, (i + 256 < length (r out1))%nat →
         r out1 !! (i + 256)%nat = r out1 !! i
         ∧ g out1 !! (i + 256)%nat = g out1 !! i
         ∧ b out1 !! (i + 256)%nat = b out1 !! i)
    ∧ (∀ i : nat, (i + 32 < length (g out1))%nat →
         g out1 !! (i + 32)%nat = g out1 !! i)
    ∧ Forall (λ x, x `mod` 8 = 0) (g out1).
Proof.
  intros Hwf1 Hwf2 Hw Hh.
  destruct (generateImageData_wf img1 Hwf1) as [Hrun1 _].
  destruct (generateImageData_wf img2 Hwf2) as [Hrun2 _].
  rewrite <- Hw, <- Hh in Hrun2.
  eexists. eexists. split; [exact Hrun1 |]. split; [exact Hrun2 |].
  simpl. split; [done |]. split; [done |]. split; [done |].
  split; [| split].
  - intros i Hi. rewrite ramp_length in Hi.
    repeat split; apply ramp_period; done.
  - intros i Hi. rewrite ramp_length in Hi. by apply ramp_period.
  - unfold ramp. apply Forall_fmap, Forall_forall. intros i _. simpl.
    replace (Z.of_nat i * 456) with (Z.of_nat i * 57 * 8) by lia.
    change 256 with (32 * 8). rewrite Z.mul_mod_distr_r by lia.
    apply Z.mod_mul. lia.
Qed.

Lemma X10_generateImageData_structure_witness :
  Image_wf img_2x2 ∧ Image_wf (mkImage 2 2 [1; 2; 3; 4] [5; 6; 7; 8] [9; 9; 9; 9] [0; 0; 0; 0])
  ∧ ∃ out1 out2,
    generateImageData img_2x2 = Some out1
    ∧ generateImageData (mkImage 2 2 [1; 2; 3; 4] [5; 6; 7; 8] [9; 9; 9; 9] [0; 0; 0; 0])
      = Some out2
    ∧ r out1 = r out2 ∧ g out1 = g out2 ∧ b out1 = b out2
    ∧ (∀ i : nat, (i + 256 < length (r out1))%nat →
         r out1 !! (i + 256)%nat = r out1 !! i
         ∧ g out1 !! (i + 256)%nat = g out1 !! i
         ∧ b out1 !! (i + 256)%nat = b out1 !! i)
    ∧ (∀ i : nat, (i + 32 < length (g out1))%nat →
         g out1 !! (i + 32)%nat = g out1 !! i)
    ∧ Forall (λ x, x `mod` 8 = 0) (g out1).
Proof.
  assert (Hwf1 : Image_wf img_2x2) by solve_wf.
  assert (Hwf2 : Image_wf (mkImage 2 2 [1; 2; 3; 4] [5; 6; 7; 8] [9; 9; 9; 9] [0; 0; 0; 0]))
    by solve_wf.
  split; [exact Hwf1 |]. split; [exact Hwf2 |].
  exact (X10_generateImageData_structure img_2x2 _ Hwf1 Hwf2 eq_refl eq_refl).
Defined.

(** X11. The conversion reads the colour channels only: two images with
    the same dimensions and colours get the same gray channel, whatever
    gray values they held, so converting a second time changes nothing. *)
Theorem X11_convertToGrayscale_idempotent (img1 img2 : Image) :
  Image_wf img1 → Image_wf img2 →
  width img1 = width img2 → height img1 = height img2 →
  r img1 = r img2 → g img1 = g img2 → b img1 = b img2 →
  ∃ out, convertToGrayscale img1 = Some out
    ∧ convertToGrayscale img2 = Some out
    ∧ convertToGrayscale out = Some out.
Proof.
  intros Hwf1 Hwf2 Hw Hh Hr Hg Hb.
  exists (set_gray img1 (luma_list (r img1) (g img1) (b img1))).
  split; [by apply convertToGrayscale_map |]. split.
  - rewrite (convertToGrayscale_map img2 Hwf2). f_equal.
    unfold set_gray. by rewrite Hw, Hh, Hr, Hg, Hb.
  - rewrite convertToGrayscale_map by (by apply convertToGrayscale_wf). done.
Qed.

Lemma X11_convertToGrayscale_idempotent_witness :
  Image_wf img_white ∧ Image_wf (mkImage 1 1 [255] [255] [255] [77])
  ∧ ∃ out, convertToGrayscale img_white = Some out
    ∧ convertToGrayscale (mkImage 1 1 [255] [255] [255] [77]) = Some out
    ∧ convertToGrayscale out = Some out.
Proof.
  assert (Hwf1 : Image_wf img_white) by solve_wf.
  assert (Hwf2 : Image_wf (mkImage 1 1 [255] [255] [255] [77])) by solve_wf.
  split; [exact Hwf1 |]. split; [exact Hwf2 |].
  exact (X11_convertToGrayscale_idempotent img_white _ Hwf1 Hwf2
           eq_refl eq_refl eq_refl eq_refl eq_refl).
Defined.

(** * The conversion against exact arithmetic *)

Lemma SFltb_finite_pos m1 e1 m2 e2 :
  SFltb (S754_finite false m1 e1) (S754_finite false m2 e2) = true →
  e1 < e2 ∨ e1 = e2 ∧ Z.pos m1 < Z.pos m2.
Proof.
  unfold SFltb, SFcompare.
  destruct (Z.compare_spec e1 e2) as [-> | Hlt | Hgt]; [| by left | discriminate].
  fold (Pos.compare m1 m2).
  destruct (Pos.compare_spec m1 m2); intros; [discriminate | right | discriminate]; split; lia.
Qed.

(** A valid binary64 number above the subnormal exponent has a 53-bit
    mantissa. *)
Lemma valid_normal s m e :
  valid_binary (S754_finite s m e) = true → -1074 < e →
  2 ^ 52 ≤ Z.pos m < 2 ^ 53.
Proof.
  simpl. unfold bounded, canonical_mantissa, fexp, SpecFloat.emin, prec, emax.
  intros [Hc _]%andb_true_iff He. apply Z.eqb_eq in Hc.
  assert (Hd : Z.pos (digits2_pos m) = 53) by lia.
  pose proof (digits2_pos_bound m) as Hup.
  pose proof (digits2_pos_lower m) as Hlo.
  rewrite Hd in Hup, Hlo. exact (conj Hlo Hup).
Qed.

Lemma small_digits (K d : Z) :
  2 ^ (d - 1) ≤ K → K ≤ 256 → 1 ≤ d → d ≤ 9.
Proof.
  intros Hlo HK Hd.
  assert (d - 1 < 9); [| lia].
  apply (Z.pow_lt_mono_r_iff 2); [lia | lia |].
  change (2 ^ 9) with 512. lia.
Qed.

Lemma shifted_floor (m e K : Z) :
  e < 0 → K * 2 ^ (- e) ≤ m → m < (K + 1) * 2 ^ (- e) → Z.shiftl m e = K.
Proof.
  intros He Hlo Hup.
  rewrite <- (Z.opp_involutive e) at 1.
  rewrite Z.shiftl_opp_r, Z.shiftr_div_pow2 by lia.
  assert (0 < 2 ^ (- e)) by (apply Z.pow_pos_nonneg; lia).
  symmetry. apply Z.div_unique with (m - K * 2 ^ (- e)); lia.
Qed.

(** A [double] between the integers [K] and [K + 1] truncates to [K]. *)
Lemma trunc_between (d : float) (K : Z) :
  0 ≤ K ≤ 255 →
  (llong_to_double K <=? d)%float = true →
  (d <? llong_to_double (K + 1))%float = true →
  trunc_double d = Some K.
Proof.
  intros HK Hle Hlt.
  rewrite FloatAxioms.leb_spec in Hle. rewrite FloatAxioms.ltb_spec in Hlt.
  pose proof (Prim2SF_valid d) as Hv. unfold trunc_double.
  destruct (llong_to_double_small (K + 1)) as (m1 & d1 & E1 & Hm1 & _ & Hr1 & Hb1);
    [lia |].
  rewrite E1 in Hlt.
  pose proof (small_digits (K + 1) d1 (proj1 Hb1)) as Hd1.
  destruct (Z.eq_dec K 0) as [-> | Hpos].
  - change (Prim2SF (llong_to_double 0)) with (S754_zero false) in Hle.
    destruct (Prim2SF d) as [s | s | | s m e]; [done | by destruct s | done |].
    destruct s; [done |].
    apply SFltb_finite_pos in Hlt. apply valid_mantissa_bound in Hv.
    assert (d1 = 1).
    { destruct (Z.eq_dec d1 1) as [| Hne]; [done |].
      assert (2 ^ 1 ≤ 2 ^ (d1 - 1)) by (apply Z.pow_le_mono_r; lia). lia. }
    subst d1. change (2 ^ (53 - 1)) with 4503599627370496 in Hm1.
    f_equal. simpl cond_Zopp.
    assert (He : e < 0) by lia.
    apply shifted_floor; [done | lia |].
    destruct Hlt as [Hlt | [-> Hlt]].
    + assert (2 ^ 53 ≤ 2 ^ (- e)) by (apply Z.pow_le_mono_r; lia). lia.
    + change (2 ^ (- (1 - 53))) with 4503599627370496. lia.
  - destruct (llong_to_double_small K) as (m0 & d0 & E0 & Hm0 & _ & Hr0 & Hb0);
      [lia |].
    rewrite E0 in Hle.
    pose proof (small_digits K d0 (proj1 Hb0)) as Hd0.
    destruct (Prim2SF d) as [s | s | | s m e]; [done | by destruct s | done |].
    destruct s; [done |].
    apply SFleb_finite_pos in Hle. apply SFltb_finite_pos in Hlt.
    assert (Hrange : -52 ≤ e ≤ -44) by lia.
    apply valid_normal in Hv; [| lia].
    f_equal. simpl cond_Zopp.
    apply shifted_floor; [lia | |].
    + destruct Hle as [Hle | [<- Hle]].
      * assert (K * 2 ^ (- e) ≤ 2 ^ d0 * 2 ^ (- e)).
        { apply Z.mul_le_mono_nonneg_r; [apply Z.pow_nonneg; lia | lia]. }
        assert (2 ^ d0 * 2 ^ (- e) ≤ 2 ^ 52).
        { rewrite <- Z.pow_add_r by lia. apply Z.pow_le_mono_r; lia. }
        lia.
      * replace (- (d0 - 53)) with (53 - d0) by lia. lia.
    + destruct Hlt as [Hlt | [-> Hlt]].
      * assert (2 ^ (d1 - 1) * 2 ^ (- e) ≤ (K + 1) * 2 ^ (- e)).
        { apply Z.mul_le_mono_nonneg_r; [apply Z.pow_nonneg; lia | lia]. }
        assert (2 ^ 53 ≤ 2 ^ (d1 - 1) * 2 ^ (- e)).
        { rewrite <- Z.pow_add_r by lia. apply Z.pow_le_mono_r; lia. }
        lia.
      * replace (- (d1 - 53)) with (53 - d1) by lia. lia.
Qed.

Lemma all_triples_spec {A : Type} (p : A → A → A → bool) (xs ys zs : list A) :
  all_triples p xs ys zs = true →
  ∀ x y z, In x xs → In y ys → In z zs → p x y z = true.
Proof.
  unfold all_triples. intros Hall x y z Hx Hy Hz.
  rewrite forallb_forall in Hall. specialize (Hall x Hx).
  rewrite forallb_forall in Hall. specialize (Hall y Hy).
  rewrite forallb_forall in Hall. exact (Hall z Hz).
Qed.

(** Checked on the 256 * 256 * 256 triples of one pair of each colour. *)
Lemma all_near_floor :
  all_triples near_floor red_pairs green_pairs blue_pairs = true.
Proof. vm_compute. reflexivity. Qed.

Lemma red_pairs_eq :
  red_pairs =
    (λ z, (Uint63.of_Z (299 * z), 0.299 * uchar_to_double z)%float) <$> bytes.
Proof. vm_compute. reflexivity. Qed.

Lemma green_pairs_eq :
  green_pairs =
    (λ z, (Uint63.of_Z (587 * z), 0.587 * uchar_to_double z)%float) <$> bytes.
Proof. vm_compute. reflexivity. Qed.

Lemma blue_pairs_eq :
  blue_pairs =
    (λ z, (Uint63.of_Z (114 * z), 0.114 * uchar_to_double z)%float) <$> bytes.
Proof. vm_compute. reflexivity. Qed.

Lemma pair_elem (k : Z) (c : float) (pairs : list (int * float)) (z : Z) :
  pairs = (λ z, (Uint63.of_Z (k * z), c * uchar_to_double z)%float) <$> bytes →
  is_uchar z → In (Uint63.of_Z (k * z), (c * uchar_to_double z)%float) pairs.
Proof.
  intros -> Hz. apply list_elem_of_In, list_elem_of_fmap.
  exists z. split; [done | by apply is_uchar_bytes].
Qed.

Lemma of_uint63_llong (q : int) :
  of_uint63 q = llong_to_double (Uint63.to_Z q).
Proof.
  rewrite llong_to_double_nonneg by apply Uint63.to_Z_bounded.
  by rewrite Uint63.of_to_Z.
Qed.

Lemma luma_of_trunc cr cg cb (K : Z) :
  is_uchar K → trunc_double (weighted cr cg cb) = Some K → luma cr cg cb = K.
Proof.
  intros HK Ht. unfold luma, gray_of, double_to_uchar. rewrite Ht. simpl.
  unfold is_uchar in HK.
  destruct (Z.leb_spec 0 K); [| lia]. destruct (Z.leb_spec K 255); [done | lia].
Qed.

(** The gray value against the exact weighted sum: with
    [s = 299 r + 587 g + 114 b] it is [s / 1000] rounded down, or one less
    when [s] is a multiple of 1000 and the binary64 sum falls just below
    that integer. *)
Lemma luma_near_floor cr cg cb :
  is_uchar cr → is_uchar cg → is_uchar cb →
  luma cr cg cb = (299 * cr + 587 * cg + 114 * cb) `div` 1000
  ∨ (luma cr cg cb = (299 * cr + 587 * cg + 114 * cb) `div` 1000 - 1
     ∧ (299 * cr + 587 * cg + 114 * cb) `mod` 1000 = 0).
Proof.
  intros Hr Hg Hb.
  pose proof (all_triples_spec near_floor _ _ _ all_near_floor _ _ _
    (pair_elem 299 0.299 red_pairs cr red_pairs_eq Hr)
    (pair_elem 587 0.587 green_pairs cg green_pairs_eq Hg)
    (pair_elem 114 0.114 blue_pairs cb blue_pairs_eq Hb)) as Hnear.
  unfold near_floor in Hnear. cbn [fst snd] in Hnear.
  fold (weighted cr cg cb) in Hnear.
  set (s := (Uint63.of_Z (299 * cr) + Uint63.of_Z (587 * cg)
             + Uint63.of_Z (114 * cb))%uint63) in Hnear.
  set (S := 299 * cr + 587 * cg + 114 * cb).
  assert (HS : 0 ≤ S ≤ 255000) by (unfold S, is_uchar in *; lia).
  assert (Hs : Uint63.to_Z s = S).
  { unfold s, S. unfold is_uchar in *.
    rewrite !Uint63.add_spec, !Uint63.of_Z_spec.
    change wB with 9223372036854775808.
    rewrite (Z.mod_small (299 * cr)) by lia.
    rewrite (Z.mod_small (587 * cg)) by lia.
    rewrite (Z.mod_small (114 * cb)) by lia.
    rewrite (Z.mod_small (299 * cr + 587 * cg)) by lia.
    apply Z.mod_small. lia. }
  assert (Hq : Uint63.to_Z (s / 1000)%uint63 = S `div` 1000).
  { rewrite Uint63.div_spec, Hs. done. }
  assert (HQ : 0 ≤ S `div` 1000 ≤ 255).
  { split; [apply Z.div_pos; lia |].
    apply Z.lt_succ_r, Z.div_lt_upper_bound; lia. }
  apply orb_true_iff in Hnear as [Hin | Hbelow].
  - left. apply andb_true_iff in Hin as [Hle Hlt].
    rewrite of_uint63_llong, Hq in Hle.
    rewrite of_uint63_llong, Uint63.add_spec, Hq in Hlt.
    change (Uint63.to_Z 1) with 1 in Hlt.
    rewrite Z.mod_small in Hlt by (change wB with 9223372036854775808; lia).
    apply luma_of_trunc; [done |]. by apply trunc_between.
  - right.
    apply andb_true_iff in Hbelow as [Hbelow Hlt].
    apply andb_true_iff in Hbelow as [Hbelow Hle].
    apply andb_true_iff in Hbelow as [Hdiv Hpos].
    apply Uint63.eqb_spec in Hdiv. apply Uint63.ltb_spec in Hpos.
    rewrite Hq in Hpos. change (Uint63.to_Z 0) with 0 in Hpos.
    assert (Hmod : S `mod` 1000 = 0).
    { rewrite <- Hs. change 1000 with (Uint63.to_Z 1000) at 1.
      rewrite <- Uint63.mod_spec, Hdiv. done. }
    rewrite of_uint63_llong, Uint63.sub_spec, Hq in Hle.
    change (Uint63.to_Z 1) with 1 in Hle.
    rewrite Z.mod_small in Hle by (change wB with 9223372036854775808; lia).
    rewrite of_uint63_llong, Hq in Hlt.
    replace (S `div` 1000) with (S `div` 1000 - 1 + 1) in Hlt by lia.
    split; [| done].
    apply luma_of_trunc; [unfold is_uchar; lia |]. apply trunc_between; [lia | done | done].
Qed.

(** X12. The stored gray value against the formula in exact arithmetic.
    With [s = 299 r[i] + 587 g[i] + 114 b[i]], [gray[i]] is the integer
    part of [s / 1000], or one less than it, and one less only when [s] is
    a multiple of 1000 (the binary64 sum then falls just below the
    integer). A pixel with [r = g = b = v] so gets [v] or [v - 1]: 255 for
    [v = 255], but 0 for [v = 1]. *)
Theorem X12_convertToGrayscale_near_exact (img : Image) :
  Image_wf img →
  ∃ img', convertToGrayscale img = Some img'
    ∧ (∀ (i : nat) cr cg cb,
         r img !! i = Some cr → g img !! i = Some cg → b img !! i = Some cb →
         ∃ y, gray img' !! i = Some y
           ∧ (y = (299 * cr + 587 * cg + 114 * cb) `div` 1000
              ∨ (y = (299 * cr + 587 * cg + 114 * cb) `div` 1000 - 1
                 ∧ (299 * cr + 587 * cg + 114 * cb) `mod` 1000 = 0))
           ∧ (cr = cg → cg = cb → y = cr ∨ y = cr - 1))
    ∧ gray_of 255 255 255 = Some 255
    ∧ gray_of 1 1 1 = Some 0.
Proof.
  intros Hwf. rewrite (convertToGrayscale_map img Hwf).
  eexists. split; [done |]. simpl.
  split; [| split; vm_compute; reflexivity].
  intros i cr cg cb Er Eg Eb.
  pose proof (Forall_lookup_1 is_uchar _ _ _ (wf_r_bytes img Hwf) Er) as Ur.
  pose proof (Forall_lookup_1 is_uchar _ _ _ (wf_g_bytes img Hwf) Eg) as Ug.
  pose proof (Forall_lookup_1 is_uchar _ _ _ (wf_b_bytes img Hwf) Eb) as Ub.
  exists (luma cr cg cb).
  rewrite luma_list_lookup, Er, Eg, Eb. split; [done |].
  pose proof (luma_near_floor cr cg cb Ur Ug Ub) as Hnear.
  split; [exact Hnear |].
  intros <- <-.
  replace (299 * cr + 587 * cr + 114 * cr) with (cr * 1000) in Hnear by lia.
  rewrite Z.div_mul in Hnear by lia.
  destruct Hnear as [-> | [-> _]]; [by left | by right].
Qed.

Lemma X12_convertToGrayscale_near_exact_witness :
  Image_wf img_white
  ∧ ∃ img', convertToGrayscale img_white = Some img'
    ∧ (∀ (i : nat) cr cg cb,
         r img_white !! i = Some cr → g img_white !! i = Some cg →
         b img_white !! i = Some cb →
         ∃ y, gray img' !! i = Some y
           ∧ (y = (299 * cr + 587 * cg + 114 * cb) `div` 1000
              ∨ (y = (299 * cr + 587 * cg + 114 * cb) `div` 1000 - 1
                 ∧ (299 * cr + 587 * cg + 114 * cb) `mod` 1000 = 0))
           ∧ (cr = cg → cg = cb → y = cr ∨ y = cr - 1))
    ∧ gray_of 255 255 255 = Some 255
    ∧ gray_of 1 1 1 = Some 0.
Proof.
  assert (Hwf : Image_wf img_white) by solve_wf.
  split; [exact Hwf |].
  exact (X12_convertToGrayscale_near_exact img_white Hwf).
Defined.

(** * Dimensions outside the expected range *)

Lemma wrap_int_shift z q :
  INT_MIN ≤ z - 2 ^ 32 * q ≤ INT_MAX → wrap_int z = z - 2 ^ 32 * q.
Proof.
  unfold wrap_int, INT_MIN, INT_MAX. intros Hz.
  assert ((z + 2 ^ 31) `mod` 2 ^ 32 = z + 2 ^ 31 - 2 ^ 32 * q); [| lia].
  symmetry. apply Z.mod_unique with q; lia.
Qed.

Lemma kernel_no_pixels {A : Type} (body : Z → A → option A) (img : Image) (s : A) :
  Image_size img = 0 → for_upto (Image_size img) body s = Some s.
Proof. intros ->. done. Qed.

(** X13. What the constructor does with any two dimensions. If the product
    is negative (down to [INT_MIN]) no image is built: [resize] throws. If
    it is 0 the image is empty and the four mutating kernels return it
    unchanged. If the product, reduced by a multiple of [2 ^ 32], lies
    between 0 and [INT_MAX], the four channels get that reduced length:
    an [int] product that wraps around gives fewer pixels than
    [width * height]. *)
Theorem X13_Image_new_sizes (w h : Z) :
  (INT_MIN ≤ w * h < 0 → Image_new w h = None)
  ∧ (w * h = 0 →
       ∃ img, Image_new w h = Some img ∧ gray img = []
         ∧ generateImageData img = Some img
         ∧ convertToGrayscale img = Some img
         ∧ (∀ offset, adjustBrightness img offset = Some img)
         ∧ (∀ threshold, applyThreshold img threshold = Some img))
  ∧ (∀ q, 0 ≤ w * h - 2 ^ 32 * q ≤ INT_MAX →
       ∃ img, Image_new w h = Some img
         ∧ width img = w ∧ height img = h
         ∧ length (r img) = Z.to_nat (w * h - 2 ^ 32 * q)
         ∧ length (g img) = Z.to_nat (w * h - 2 ^ 32 * q)
         ∧ length (b img) = Z.to_nat (w * h - 2 ^ 32 * q)
         ∧ length (gray img) = Z.to_nat (w * h - 2 ^ 32 * q)).
Proof.
  split; [apply Image_new_negative |]. split.
  - intros Hzero.
    assert (Hsz : 0 ≤ w * h ≤ INT_MAX) by (unfold INT_MAX; lia).
    rewrite (Image_new_zero w h Hsz), Hzero. simpl.
    eexists. split; [done |]. simpl. split; [done |].
    assert (Hsize : Image_size (mkImage w h [] [] [] []) = 0).
    { unfold Image_size, int_mul. simpl. rewrite Hzero. done. }
    repeat split; intros;
      unfold generateImageData, convertToGrayscale, adjustBrightness, applyThreshold;
      by apply kernel_no_pixels.
  - intros q Hq. unfold Image_new, int_mul.
    rewrite (wrap_int_shift (w * h) q) by (unfold INT_MIN, INT_MAX in *; lia).
    destruct (Z.ltb_spec (w * h - 2 ^ 32 * q) 0); [lia |].
    eexists. split; [done |]. simpl.
    by rewrite !length_replicate.
Qed.

Lemma X13_Image_new_sizes_witness :
  (INT_MIN ≤ (-2) * 3 < 0 ∧ Image_new (-2) 3 = None)
  ∧ (0 ≤ 65536 * 65537 - 2 ^ 32 * 1 ≤ INT_MAX
     ∧ ∃ img, Image_new 65536 65537 = Some img
         ∧ width img = 65536 ∧ height img = 65537
         ∧ length (r img) = Z.to_nat (65536 * 65537 - 2 ^ 32 * 1)
         ∧ length (g img) = Z.to_nat (65536 * 65537 - 2 ^ 32 * 1)
         ∧ length (b img) = Z.to_nat (65536 * 65537 - 2 ^ 32 * 1)
         ∧ length (gray img) = Z.to_nat (65536 * 65537 - 2 ^ 32 * 1)).
Proof.
  assert (Hneg : INT_MIN ≤ (-2) * 3 < 0) by (unfold INT_MIN; lia).
  assert (Hbig : 0 ≤ 65536 * 65537 - 2 ^ 32 * 1 ≤ INT_MAX) by (unfold INT_MAX; lia).
  split.
  - split; [exact Hneg |]. exact (proj1 (X13_Image_new_sizes (-2) 3) Hneg).
  - split; [exact Hbig |].
    exact (proj2 (proj2 (X13_Image_new_sizes 65536 65537)) 1 Hbig).
Defined.

(** * The kernels over parts of the pixel range *)

Lemma Zsum_Permutation (l k : list Z) : l ≡ₚ k → Zsum l = Zsum k.
Proof.
  induction 1 as [| x l k _ IH | x y l | l k m _ IH1 _ IH2]; simpl; lia.
Qed.

(** X14. The average is a reduction. It depends on the gray values only
    through their sum: two images of the same dimensions whose gray
    channels are permutations of each other have the same average; and
    when the gray channel of an image is the concatenation of two parts,
    the sum it divides is the sum of the two partial sums. *)
Theorem X14_calculateAverageGray_reduction (img1 img2 : Image) (part1 part2 : list Z) :
  Image_wf img1 → Image_wf img2 →
  width img1 = width img2 → height img1 = height img2 →
  gray img1 ≡ₚ gray img2 →
  gray img1 = part1 ++ part2 →
  calculateAverageGray img1 = calculateAverageGray img2
  ∧ calculateAverageGray img1 =
      Some (llong_to_double (Zsum part1 + Zsum part2)
            / llong_to_double (width img1 * height img1))%float.
Proof.
  intros Hwf1 Hwf2 Hw Hh Hperm Hparts.
  rewrite (calculateAverageGray_sum img1)
    by (apply Image_wf_gray_length || apply wf_gray_bytes; done).
  rewrite (calculateAverageGray_sum img2)
    by (apply Image_wf_gray_length || apply wf_gray_bytes; done).
  rewrite (Image_size_wf img1 (wf_size img1 Hwf1)).
  rewrite (Image_size_wf img2 (wf_size img2 Hwf2)).
  split.
  - by rewrite (Zsum_Permutation _ _ Hperm), Hw, Hh.
  - by rewrite Hparts, Zsum_app.
Qed.

Lemma X14_calculateAverageGray_reduction_witness :
  Image_wf img_2x2 ∧ Image_wf (mkImage 2 2 [0; 0; 0; 0] [0; 0; 0; 0] [0; 0; 0; 0] [255; 128; 127; 0])
  ∧ gray img_2x2 ≡ₚ [255; 128; 127; 0]
  ∧ gray img_2x2 = [0; 127] ++ [128; 255]
  ∧ calculateAverageGray img_2x2
    = calculateAverageGray (mkImage 2 2 [0; 0; 0; 0] [0; 0; 0; 0] [0; 0; 0; 0] [255; 128; 127; 0])
  ∧ calculateAverageGray img_2x2 =
      Some (llong_to_double (Zsum [0; 127] + Zsum [128; 255])%Z
            / llong_to_double (width img_2x2 * height img_2x2))%float.
Proof.
  assert (Hwf1 : Image_wf img_2x2) by solve_wf.
  assert (Hwf2 : Image_wf (mkImage 2 2 [0; 0; 0; 0] [0; 0; 0; 0] [0; 0; 0; 0] [255; 128; 127; 0]))
    by solve_wf.
  assert (Hperm : gray img_2x2 ≡ₚ [255; 128; 127; 0]).
  { simpl. change [0; 127; 128; 255] with (reverse [255; 128; 127; 0]).
    apply reverse_Permutation. }
  assert (Hparts : gray img_2x2 = [0; 127] ++ [128; 255]) by reflexivity.
  split; [exact Hwf1 |]. split; [exact Hwf2 |]. split; [exact Hperm |].
  split; [exact Hparts |].
  exact (X14_calculateAverageGray_reduction img_2x2 _ [0; 127] [128; 255]
           Hwf1 Hwf2 eq_refl eq_refl Hperm Hparts).
Defined.

Lemma luma_list_app (r1 g1 b1 r2 g2 b2 : list Z) :
  length r1 = length g1 → length g1 = length b1 →
  luma_list (r1 ++ r2) (g1 ++ g2) (b1 ++ b2)
  = luma_list r1 g1 b1 ++ luma_list r2 g2 b2.
Proof.
  intros Hrg Hgb. unfold luma_list.
  rewrite (zip_with_app pair) by done.
  apply zip_with_app. rewrite length_zip_with. lia.
Qed.

(** X15. The three per-pixel kernels work on every pixel by itself, as
    their comments in the source say ("parallelizable"): when the channels
    of an image are the concatenation of the channels of two images, each
    kernel's gray channel of the whole is the concatenation of its gray
    channels of the two parts. *)
Theorem X15_kernels_pixelwise (whole part1 part2 : Image) (offset threshold : Z) :
  Image_wf whole → Image_wf part1 → Image_wf part2 →
  r whole = r part1 ++ r part2 → g whole = g part1 ++ g part2 →
  b whole = b part1 ++ b part2 → gray whole = gray part1 ++ gray part2 →
  (∃ out out1 out2,
     convertToGrayscale whole = Some out
     ∧ convertToGrayscale part1 = Some out1 ∧ convertToGrayscale part2 = Some out2
     ∧ gray out = gray out1 ++ gray out2)
  ∧ (∃ out out1 out2,
     adjustBrightness whole offset = Some out
     ∧ adjustBrightness part1 offset = Some out1
     ∧ adjustBrightness part2 offset = Some out2
     ∧ gray out = gray out1 ++ gray out2)
  ∧ (∃ out out1 out2,
     applyThreshold whole threshold = Some out
     ∧ applyThreshold part1 threshold = Some out1
     ∧ applyThreshold part2 threshold = Some out2
     ∧ gray out = gray out1 ++ gray out2).
Proof.
  intros Hwf Hwf1 Hwf2 Hr Hg Hb Hgray.
  split; [| split].
  - eexists. eexists. eexists.
    split; [by apply convertToGrayscale_map |].
    split; [by apply convertToGrayscale_map |].
    split; [by apply convertToGrayscale_map |].
    simpl. rewrite Hr, Hg, Hb. apply luma_list_app.
    + by rewrite (wf_r part1 Hwf1), (wf_g part1 Hwf1).
    + by rewrite (wf_g part1 Hwf1), (wf_b part1 Hwf1).
  - eexists. eexists. eexists.
    split; [by apply adjustBrightness_map, Image_wf_gray_length |].
    split; [by apply adjustBrightness_map, Image_wf_gray_length |].
    split; [by apply adjustBrightness_map, Image_wf_gray_length |].
    simpl. by rewrite Hgray, fmap_app.
  - eexists. eexists. eexists.
    split; [by apply applyThreshold_map, Image_wf_gray_length |].
    split; [by apply applyThreshold_map, Image_wf_gray_length |].
    split; [by apply applyThreshold_map, Image_wf_gray_length |].
    simpl. by rewrite Hgray, fmap_app.
Qed.

Lemma X15_kernels_pixelwise_witness :
  Image_wf (mkImage 2 1 [255; 0] [255; 0] [255; 0] [0; 1])
  ∧ Image_wf img_white ∧ Image_wf img_dark
  ∧ ∃ out out1 out2,
     applyThreshold (mkImage 2 1 [255; 0] [255; 0] [255; 0] [0; 1]) 1 = Some out
     ∧ applyThreshold img_white 1 = Some out1
     ∧ applyThreshold img_dark 1 = Some out2
     ∧ gray out = gray out1 ++ gray out2.
Proof.
  assert (Hwf : Image_wf (mkImage 2 1 [255; 0] [255; 0] [255; 0] [0; 1])) by solve_wf.
  assert (Hwf1 : Image_wf img_white) by solve_wf.
  assert (Hwf2 : Image_wf img_dark) by solve_wf.
  split; [exact Hwf |]. split; [exact Hwf1 |]. split; [exact Hwf2 |].
  exact (proj2 (proj2 (X15_kernels_pixelwise _ img_white img_dark 0 1
           Hwf Hwf1 Hwf2 eq_refl eq_refl eq_refl eq_refl))).
Defined.
